(** * microlambda: checksum cache and node compilation state machine

    A shallow embedding of

    - [cli/src/utils/checksums.ts]: the fingerprint store ([calculate], [read],
      [write], [compare]);
    - [core/src/graph/node.ts]: the [Node] constructor, the queries on the
      dependencies of a node and the two compilation state machines
      ([transpile], [performTypeChecking]);
    - the reducer [graphStatus] of the store of the user interface;
    - [plugin/src/aws/api-gateway/get-custom-domain.ts]: [getLatencyRecord].

    JavaScript runs the node's code on one thread: a callback runs to its
    end before the next one starts.  The embedding follows that: the state of
    a node and of its environment is a record, and every callback of the
    source (a subscription, the continuation after an [await], a listener
    of the child process, a promise reaction) is one total function on that
    record. *)

From Stdlib Require Import List String Bool Arith Lia Permutation ZArith.
From Stdlib Require Import Relations Ascii.
From stdpp Require Import base list strings.
Import ListNotations.
Open Scope string_scope.
Open Scope list_scope.

(** ** Promises and exceptions *)

(** What a [throw] or a rejection carries.  Only the kind matters here. *)
Inductive Thrown : Type :=
| TypeError            (* dereferencing null or undefined *)
| IOError              (* fs: readFile, writeFile, mkdirSync, hasha *)
| SyntaxError.         (* JSON.parse *)

(** Outcome of a synchronous call that may throw. *)
Inductive Result (A : Type) : Type :=
| Ok (a : A)
| Throw (e : Thrown).
Arguments Ok {A} a.
Arguments Throw {A} e.

(** A settled promise. *)
Inductive Promise (A : Type) : Type :=
| Resolved (a : A)
| Rejected (e : Thrown).
Arguments Resolved {A} a.
Arguments Rejected {A} e.

(** ** checksums.ts *)

Module Checksums.

(** [interface IChecksums { [file: string]: string }].  A JavaScript object
    keeps its own string keys in insertion order and [Object.keys] lists them
    in that order, so the object is the list of its entries; a key occurs
    once ([wf]).  A value typed [IChecksums] may be [null]: [option]. *)
Definition IChecksums : Type := list (string * string).

Definition keys (o : IChecksums) : list string := map fst o.

Definition wf (o : IChecksums) : Prop := List.NoDup (keys o).

(** [o[key]]; [None] is [undefined]. *)
Fixpoint get (o : IChecksums) (key : string) : option string :=
  match o with
  | [] => None
  | (k, v) :: rest => if String.eqb k key then Some v else get rest key
  end.

(** [o[key] = v]: an existing key keeps its place, a new one goes last. *)
Fixpoint set (o : IChecksums) (key v : string) : IChecksums :=
  match o with
  | [] => [(key, v)]
  | (k, v0) :: rest =>
      if String.eqb k key then (k, v) :: rest else (k, v0) :: set rest key v
  end.

(** [Array.prototype.includes] on an array of strings. *)
Definition includes (l : list string) (key : string) : bool :=
  existsb (String.eqb key) l.

(** [a !== b] where both sides are a string or [undefined]. *)
Definition strict_neq (a b : option string) : bool :=
  match a, b with
  | Some x, Some y => negb (String.eqb x y)
  | None, None => false
  | _, _ => true
  end.

(** The [for (const key of keys.current)] loop of [compare]. *)
Fixpoint compare_loop (old current : IChecksums) (keys_old ks : list string)
  : bool :=
  match ks with
  | [] => false
  | key :: rest =>
      if negb (includes keys_old key) then true
      else if strict_neq (get old key) (get current key) then true
      else compare_loop old current keys_old rest
  end.

(** [compare(old, current)]: [true] means the node must be recompiled.
    [Object.keys(current)] throws on [null]; it is evaluated only once [old]
    has passed the [!old] test. *)
Definition compare (old current : option IChecksums) : Result bool :=
  match old with
  | None => Ok true
  | Some o =>
      match current with
      | None => Throw TypeError
      | Some c =>
          if negb (Nat.eqb (length (keys o)) (length (keys c))) then Ok true
          else Ok (compare_loop o c (keys o) (keys c))
      end
  end.

(** The file at [hashPath], as [read] can find it.  [read()] resolves to
    whatever [JSON.parse] returns: an object of digests, which is what
    [write] stores, or [null] when the file holds the text [null].  A
    content that parses to another value is outside [IChecksums], the type
    that [read()] declares. *)
Inductive HashFile : Type :=
| NoFile                       (* existsSync(hashPath) is false *)
| Unreadable                   (* readFile calls back with an error *)
| Corrupt                      (* JSON.parse throws on the content *)
| Stored (hashes : IChecksums) (* JSON.parse returns this object *)
| StoredNull                   (* JSON.parse returns null *).

(** [read()]. *)
Definition read (f : HashFile) : Promise (option IChecksums) :=
  match f with
  | NoFile => Resolved None
  | Unreadable => Rejected IOError
  | Corrupt => Rejected SyntaxError
  | Stored hashes => Resolved (Some hashes)
  | StoredNull => Resolved None
  end.

(** One [fromFile(src, sha256)] call of [calculate]: the source path and the
    digest, or [None] when hashing the file is rejected. *)
Definition HashJob : Type := (string * option string)%type.

(** [calculate()].  The hashing jobs of the node and of its dependencies run
    concurrently and each one stores [hashes[src]] when it completes, so the
    argument lists the jobs in completion order.  [Promise.all] rejects as
    soon as one job does. *)
Fixpoint calculate_from (hashes : IChecksums) (jobs : list HashJob)
  : Promise IChecksums :=
  match jobs with
  | [] => Resolved hashes
  | (src, Some digest) :: rest => calculate_from (set hashes src digest) rest
  | (_, None) :: _ => Rejected IOError
  end.

Definition calculate (jobs : list HashJob) : Promise IChecksums :=
  calculate_from [] jobs.

(** The job that hashed [entry.1] to [entry.2]. *)
Definition hashed (entry : string * string) : HashJob :=
  (fst entry, Some (snd entry)).

(** How a [write(data)] call ends: the file now holds [data], or the promise
    is rejected and the file is left as the failed [mkdirSync] or
    [writeFile] left it. *)
Inductive WriteOutcome : Type :=
| Written
| WriteFailed (left_behind : HashFile).

Definition write (data : IChecksums) (r : WriteOutcome) (f : HashFile)
  : HashFile * Promise unit :=
  match r with
  | Written => (Stored data, Resolved tt)
  | WriteFailed left_behind => (left_behind, Rejected IOError)
  end.

(** [name.split('/')]: the pieces between the slashes, at least one. *)
Fixpoint split (s : string) : list string :=
  match s with
  | EmptyString => [EmptyString]
  | String c rest =>
      if Ascii.eqb c "/"%char then EmptyString :: split rest
      else match split rest with
           | segment :: segments => String c segment :: segments
           | [] => [String c EmptyString]
           end
  end.

(** [segments[segments.length - 1]], the name of the file under
    [hashesDir] that [hashPath] points to. *)
Definition hashFileName (nodeName : string) : string :=
  List.last (split nodeName) EmptyString.

Fixpoint has_slash (s : string) : bool :=
  match s with
  | EmptyString => false
  | String c rest => Ascii.eqb c "/"%char || has_slash rest
  end.

(** The digest that the last job on [src] stored, if a job hashed [src]. *)
Definition last_digest (jobs : list HashJob) (src : string) : option string :=
  fold_left (fun found job => if String.eqb (fst job) src then snd job
                              else found)
            jobs None.

End Checksums.

(** ** enums/compilation.status *)

Inductive TranspilingStatus : Type :=
| NOT_TRANSPILED | TRANSPILING | TRANSPILED | ERROR_TRANSPILING.

Inductive TypeCheckStatus : Type :=
| NOT_CHECKED | CHECKING | SUCCESS | ERROR.

Inductive NodeStatus : Type :=
| DISABLED | ENABLED.

(** ** node.ts: the constructor *)

Module Graph.

(** A yarn [Workspace], reduced to what the constructor reads: [getName]
    of the workspace, its manifest, its directory, and the names ([getName])
    of the descriptors of [manifest.dependencies] and
    [manifest.devDependencies] in the order [values()] yields them.
    [isService] is the answer of [isService(workspace.cwd)]. *)
Record Workspace : Type := {
  ws_name : string;
  ws_version : string;
  ws_private : bool;
  cwd : string;
  manifest_dependencies : list string;
  manifest_devDependencies : list string;
  isService : bool
}.

(** [Project.workspaces]. *)
Definition Project : Type := list Workspace.

Inductive Kind : Type := Package | Service.

(** [workspaces.find((w) => getName(w) === name)]. *)
Definition workspace_named (workspaces : Project) (n : string)
  : option Workspace :=
  find (fun w => String.eqb (ws_name w) n) workspaces.

(** [dependencies.concat(devDependencies)], as names. *)
Definition declared (w : Workspace) : list string :=
  manifest_dependencies w ++ manifest_devDependencies w.

(** The fields the constructor assigns.  [dependencies] holds the node
    objects themselves, as in the source. *)
#[warnings="-register-all"]
Inductive Node : Type := mkNode {
  kind : Kind;
  name : string;
  version : string;
  private : bool;
  location : string;
  nodeStatus : NodeStatus;
  transpilingStatus : TranspilingStatus;
  typeCheckStatus : TypeCheckStatus;
  dependencies : list Node
}.

(** The [for (const descriptor of dependencies.concat(devDependencies))]
    loop.  [build] stands for [new Service(...)] / [new Package(...)]; it
    answers [None] when that call does not return.  [nodes] is the shared
    [Set<Node>], threaded through every call. *)
Fixpoint resolve
    (build : Kind -> Workspace -> list Node -> option (Node * list Node))
    (workspaces : Project) (descriptors : list string)
    (nodes dependentWorkspaces : list Node)
  : option (list Node * list Node) :=
  match descriptors with
  | [] => Some (dependentWorkspaces, nodes)
  | descriptor :: rest =>
      match find (fun n => String.eqb (name n) descriptor) nodes with
      | Some alreadyBuilt =>
          resolve build workspaces rest nodes
                  (dependentWorkspaces ++ [alreadyBuilt])
      | None =>
          match workspace_named workspaces descriptor with
          | None => resolve build workspaces rest nodes dependentWorkspaces
          | Some workspace =>
              match build (if isService workspace then Service else Package)
                          workspace nodes with
              | None => None
              | Some (child, nodes') =>
                  resolve build workspaces rest nodes'
                          (dependentWorkspaces ++ [child])
              end
          end
      end
  end.

(** [new Node(scheduler, graph, node, nodes, project)], through the
    [Package] or [Service] subclass.  The constructor calls itself for every
    dependency that is a workspace and is not in [nodes] yet, and adds
    [this] to [nodes] in its last statement.  [depth] is the number of
    nested constructor calls the call stack still has room for; [None]
    means that this room did not suffice.  On return: the new node and the
    updated [nodes]. *)
Fixpoint construct (depth : nat) (project : Project) (k : Kind)
    (node : Workspace) (nodes : list Node) : option (Node * list Node) :=
  match depth with
  | O => None
  | S depth' =>
      match resolve (construct depth' project) project (declared node)
                    nodes [] with
      | None => None
      | Some (dependentWorkspaces, nodes') =>
          let this := {| kind := k;
                         name := ws_name node;
                         version := ws_version node;
                         private := ws_private node;
                         location := cwd node;
                         nodeStatus := DISABLED;
                         transpilingStatus := NOT_TRANSPILED;
                         typeCheckStatus := NOT_CHECKED;
                         dependencies := dependentWorkspaces |} in
          Some (this, nodes' ++ [this])
      end
  end.

(** [_getDependencies(deps)]: every dependency is pushed on [deps],
    followed by what its own [_getDependencies] pushes.  The objects of
    [dependencies] were all constructed before [this], so the walk ends. *)
Fixpoint _getDependencies (this : Node) (deps : list Node) : list Node :=
  match this with
  | mkNode _ _ _ _ _ _ _ _ dependencies =>
      (fix loop (ds deps : list Node) : list Node :=
         match ds with
         | [] => deps
         | dep :: rest => loop rest (_getDependencies dep (deps ++ [dep]))
         end) dependencies deps
  end.

Definition getDependencies (this : Node) : list Node :=
  _getDependencies this [].

(** [getChildren()] and [getChild(name)]. *)
Definition getChildren (this : Node) : list Node := dependencies this.

Definition getChild (this : Node) (n : string) : option Node :=
  find (fun d => String.eqb (name d) n) (dependencies this).

(** [getDependent()], [getParents()] and [isRoot()]; [nodes] is what
    [this.graph.getNodes()] returns. *)
Definition getDependent (nodes : list Node) (this : Node) : list Node :=
  List.filter
    (fun n => Checksums.includes (map name (getDependencies n)) (name this))
    nodes.

Definition getParents (nodes : list Node) (this : Node) : list Node :=
  List.filter
    (fun n => existsb (fun d => String.eqb (name d) (name this))
                      (dependencies n))
    nodes.

Definition isRoot (nodes : list Node) (this : Node) : bool :=
  Nat.eqb (length (getDependent nodes this)) 0.

(** [enable()], [disable()] and [isEnabled()]. *)
Definition with_nodeStatus (s : NodeStatus) (this : Node) : Node :=
  {| kind := kind this; name := name this; version := version this;
     private := private this; location := location this;
     nodeStatus := s;
     transpilingStatus := transpilingStatus this;
     typeCheckStatus := typeCheckStatus this;
     dependencies := dependencies this |}.

Definition enable (this : Node) : Node := with_nodeStatus ENABLED this.

Definition disable (this : Node) : Node := with_nodeStatus DISABLED this.

Definition isEnabled (this : Node) : bool :=
  match nodeStatus this with ENABLED => true | DISABLED => false end.

(** [this] lists [d] among its [dependencies]. *)
Definition depends_on (this d : Node) : Prop := In d (dependencies this).

(** A set of nodes that holds the dependencies of each of its nodes. *)
Definition closed (nodes : list Node) : Prop :=
  forall n d, In n nodes -> depends_on n d -> In d nodes.

(** The state a node is constructed in. *)
Definition just_built (n : Node) : Prop :=
  nodeStatus n = DISABLED /\ transpilingStatus n = NOT_TRANSPILED /\
  typeCheckStatus n = NOT_CHECKED.

(** The declared names for which the constructor keeps a dependency: those
    of a node built before the call and those of a workspace of the
    project. *)
Definition kept (project : Project) (nodes : list Node) (d : string) : bool :=
  existsb (fun n => String.eqb (name n) d) nodes
  || match workspace_named project d with Some _ => true | None => false end.

(** No node of [nodes] bears a name of the set [names]. *)
Definition none_built (names : string -> bool) (nodes : list Node) : Prop :=
  forall n, In n nodes -> names (name n) = false.

(** What a constructor call on the workspace [w] leaves behind, given the
    node set [nodes] it was called with: the node [r] and the node set
    [nodes']. *)
Definition built (project : Project) (w : Workspace) (nodes : list Node)
    (r : Node) (nodes' : list Node) : Prop :=
  name r = ws_name w /\
  just_built r /\
  map name (dependencies r) = List.filter (kept project nodes) (declared w) /\
  exists new,
    nodes' = nodes ++ new ++ [r] /\
    (forall n, In n new ->
               workspace_named project (name n) <> None /\ just_built n) /\
    (closed nodes -> closed nodes').

End Graph.


(** ** node.ts: the compilation state machines of one node *)

Module Compilation.
Import Checksums.

(** An entry of [_typeCheckLogs]: a chunk of compiler output or a line of
    the skip notice; [Json c] is [JSON.stringify(c, null, 2)]. *)
Inductive LogLine : Type :=
| Line (text : string)
| Json (checksums : option IChecksums).

Inductive Level : Type := INFO | WARN | ERR.

Inductive Stream : Type := Stdout | Stderr.

(** What the subscriber of [performTypeChecking] or [transpile] is told. *)
Inductive Notification : Type :=
| OnNext
| OnError
| OnComplete.

(** The calls the node makes on the outside, in [trace].  Logger calls at
    the [debug] and [silly] levels are left out. *)
Inductive Effect : Type :=
| TypeCheck_next (status : TypeCheckStatus)     (* _typeCheck$.next *)
| Transpiled_next (status : TranspilingStatus)  (* _transpiled$.next *)
| TscLogs_next (data : string)                  (* _tscLogs$.next *)
| GraphUpdated                                  (* _ipc.graphUpdated() *)
| Spawn (pid : nat)                             (* spawn(getBinary('tsc'..)) *)
| CompileFiles (promise : nat)                  (* compileFiles(location) *)
| WriteChecksums (data : IChecksums)            (* checksums(..).write(data) *)
| Logger (category : string) (level : Level) (message : list string)
| Observer (o : nat) (n : Notification).

(** What [_watchTypeChecking().subscribe(next, error, complete)] was given
    as [complete]: the callback of a request that started the process, with
    the checksums of its [action], or the one of a request that found the
    node [CHECKING]. *)
Inductive Role : Type :=
| Starter (checksums : option IChecksums)
| Follower.

(** One subscription to [_watchTypeChecking()]: its 'close' and 'error'
    listeners on the process and the rxjs subscriber they feed, which
    ignores everything after its first [error] or [complete]. *)
Record Watcher : Type := {
  observer : nat;
  role : Role;
  stopped : bool
}.

(** A [ChildProcess]: its listeners, in registration order.  The 'data'
    listeners of stdout and stderr are the same for every process. *)
Record ChildProcess : Type := {
  watchers : list Watcher
}.

(** The promise of one [_startTranspiling()] call: how it settled, if it
    did, and the subscribers that called [then] on it so far. *)
Record CompilePromise : Type := {
  settled : option bool;
  reactions : list nat
}.

(** The node ([this]), the part of its environment it acts on, the
    callbacks that are waiting, and the trace. *)
Record World : Type := {
  name : string;
  _ipc : bool;                       (* was registerIPCServer called *)
  transpilingStatus : TranspilingStatus;
  transpilingPromise : option nat;   (* index in promises; None: undefined *)
  typeCheckStatus : TypeCheckStatus;
  typeCheckProcess : option nat;     (* index in procs; None: undefined *)
  _typeCheckLogs : list LogLine;
  _checksums : option IChecksums;
  procs : list ChildProcess;         (* every tsc process spawned so far *)
  promises : list CompilePromise;    (* every compileFiles promise so far *)
  hashFile : HashFile;               (* the file at hashPath *)
  starting : list (nat * bool);      (* _startTypeChecking calls at their
                                        await: subscriber, force *)
  writing : list (nat * IChecksums); (* write calls not settled yet:
                                        subscriber, data *)
  trace : list Effect                (* what the node did, latest first *)
}.

(** Assignment to one field. *)
Definition upd_ipc (v : bool) (w : World) : World :=
  {| name := name w; _ipc := v; transpilingStatus := transpilingStatus w;
     transpilingPromise := transpilingPromise w;
     typeCheckStatus := typeCheckStatus w;
     typeCheckProcess := typeCheckProcess w;
     _typeCheckLogs := _typeCheckLogs w; _checksums := _checksums w;
     procs := procs w; promises := promises w; hashFile := hashFile w;
     starting := starting w; writing := writing w; trace := trace w |}.

Definition upd_transpilingStatus (v : TranspilingStatus) (w : World) : World :=
  {| name := name w; _ipc := _ipc w; transpilingStatus := v;
     transpilingPromise := transpilingPromise w;
     typeCheckStatus := typeCheckStatus w;
     typeCheckProcess := typeCheckProcess w;
     _typeCheckLogs := _typeCheckLogs w; _checksums := _checksums w;
     procs := procs w; promises := promises w; hashFile := hashFile w;
     starting := starting w; writing := writing w; trace := trace w |}.

Definition upd_transpilingPromise (v : option nat) (w : World) : World :=
  {| name := name w; _ipc := _ipc w;
     transpilingStatus := transpilingStatus w; transpilingPromise := v;
     typeCheckStatus := typeCheckStatus w;
     typeCheckProcess := typeCheckProcess w;
     _typeCheckLogs := _typeCheckLogs w; _checksums := _checksums w;
     procs := procs w; promises := promises w; hashFile := hashFile w;
     starting := starting w; writing := writing w; trace := trace w |}.

Definition upd_typeCheckStatus (v : TypeCheckStatus) (w : World) : World :=
  {| name := name w; _ipc := _ipc w;
     transpilingStatus := transpilingStatus w;
     transpilingPromise := transpilingPromise w; typeCheckStatus := v;
     typeCheckProcess := typeCheckProcess w;
     _typeCheckLogs := _typeCheckLogs w; _checksums := _checksums w;
     procs := procs w; promises := promises w; hashFile := hashFile w;
     starting := starting w; writing := writing w; trace := trace w |}.

Definition upd_typeCheckProcess (v : option nat) (w : World) : World :=
  {| name := name w; _ipc := _ipc w;
     transpilingStatus := transpilingStatus w;
     transpilingPromise := transpilingPromise w;
     typeCheckStatus := typeCheckStatus w; typeCheckProcess := v;
     _typeCheckLogs := _typeCheckLogs w; _checksums := _checksums w;
     procs := procs w; promises := promises w; hashFile := hashFile w;
     starting := starting w; writing := writing w; trace := trace w |}.

Definition upd_typeCheckLogs (v : list LogLine) (w : World) : World :=
  {| name := name w; _ipc := _ipc w;
     transpilingStatus := transpilingStatus w;
     transpilingPromise := transpilingPromise w;
     typeCheckStatus := typeCheckStatus w;
     typeCheckProcess := typeCheckProcess w; _typeCheckLogs := v;
     _checksums := _checksums w; procs := procs w; promises := promises w;
     hashFile := hashFile w; starting := starting w; writing := writing w;
     trace := trace w |}.

Definition upd_checksums (v : option IChecksums) (w : World) : World :=
  {| name := name w; _ipc := _ipc w;
     transpilingStatus := transpilingStatus w;
     transpilingPromise := transpilingPromise w;
     typeCheckStatus := typeCheckStatus w;
     typeCheckProcess := typeCheckProcess w;
     _typeCheckLogs := _typeCheckLogs w; _checksums := v; procs := procs w;
     promises := promises w; hashFile := hashFile w; starting := starting w;
     writing := writing w; trace := trace w |}.

Definition upd_procs (v : list ChildProcess) (w : World) : World :=
  {| name := name w; _ipc := _ipc w;
     transpilingStatus := transpilingStatus w;
     transpilingPromise := transpilingPromise w;
     typeCheckStatus := typeCheckStatus w;
     typeCheckProcess := typeCheckProcess w;
     _typeCheckLogs := _typeCheckLogs w; _checksums := _checksums w;
     procs := v; promises := promises w; hashFile := hashFile w;
     starting := starting w; writing := writing w; trace := trace w |}.

Definition upd_promises (v : list CompilePromise) (w : World) : World :=
  {| name := name w; _ipc := _ipc w;
     transpilingStatus := transpilingStatus w;
     transpilingPromise := transpilingPromise w;
     typeCheckStatus := typeCheckStatus w;
     typeCheckProcess := typeCheckProcess w;
     _typeCheckLogs := _typeCheckLogs w; _checksums := _checksums w;
     procs := procs w; promises := v; hashFile := hashFile w;
     starting := starting w; writing := writing w; trace := trace w |}.

Definition upd_hashFile (v : HashFile) (w : World) : World :=
  {| name := name w; _ipc := _ipc w;
     transpilingStatus := transpilingStatus w;
     transpilingPromise := transpilingPromise w;
     typeCheckStatus := typeCheckStatus w;
     typeCheckProcess := typeCheckProcess w;
     _typeCheckLogs := _typeCheckLogs w; _checksums := _checksums w;
     procs := procs w; promises := promises w; hashFile := v;
     starting := starting w; writing := writing w; trace := trace w |}.

Definition upd_starting (v : list (nat * bool)) (w : World) : World :=
  {| name := name w; _ipc := _ipc w;
     transpilingStatus := transpilingStatus w;
     transpilingPromise := transpilingPromise w;
     typeCheckStatus := typeCheckStatus w;
     typeCheckProcess := typeCheckProcess w;
     _typeCheckLogs := _typeCheckLogs w; _checksums := _checksums w;
     procs := procs w; promises := promises w; hashFile := hashFile w;
     starting := v; writing := writing w; trace := trace w |}.

Definition upd_writing (v : list (nat * IChecksums)) (w : World) : World :=
  {| name := name w; _ipc := _ipc w;
     transpilingStatus := transpilingStatus w;
     transpilingPromise := transpilingPromise w;
     typeCheckStatus := typeCheckStatus w;
     typeCheckProcess := typeCheckProcess w;
     _typeCheckLogs := _typeCheckLogs w; _checksums := _checksums w;
     procs := procs w; promises := promises w; hashFile := hashFile w;
     starting := starting w; writing := v; trace := trace w |}.

Definition upd_trace (v : list Effect) (w : World) : World :=
  {| name := name w; _ipc := _ipc w;
     transpilingStatus := transpilingStatus w;
     transpilingPromise := transpilingPromise w;
     typeCheckStatus := typeCheckStatus w;
     typeCheckProcess := typeCheckProcess w;
     _typeCheckLogs := _typeCheckLogs w; _checksums := _checksums w;
     procs := procs w; promises := promises w; hashFile := hashFile w;
     starting := starting w; writing := writing w; trace := v |}.

Definition emit (e : Effect) (w : World) : World :=
  upd_trace (e :: trace w) w.

(** [this.getGraph().logger.log(category).info(...)] and its siblings. *)
Definition log (category : string) (level : Level) (message : list string)
    (w : World) : World :=
  emit (Logger category level message) w.

(** *** Setters *)

Definition registerIPCServer (w : World) : World := upd_ipc true w.

Definition setTranspilingStatus (status : TranspilingStatus) (w : World)
  : World :=
  let w := upd_transpilingStatus status w in
  let w := if _ipc w then emit GraphUpdated w else w in
  emit (Transpiled_next (transpilingStatus w)) w.

Definition setTypeCheckingStatus (status : TypeCheckStatus) (w : World)
  : World :=
  let w := upd_typeCheckStatus status w in
  emit (TypeCheck_next (typeCheckStatus w)) w.

(** *** Type checking *)

Definition _handleTscLogs (data : string) (w : World) : World :=
  let w := upd_typeCheckLogs (_typeCheckLogs w ++ [Line data]) w in
  emit (TscLogs_next data) w.

(** The 'data' listeners that [_startTypeChecking] puts on stderr and
    stdout of the process it spawns. *)
Definition dataListener (s : Stream) (data : string) (w : World) : World :=
  let level := match s with Stderr => ERR | Stdout => INFO end in
  let w := log "tsc" level [name w +:+ ": " +:+ data] w in
  _handleTscLogs data w.

(** [this.typeCheckProcess = spawn(...)]: the new process is the next entry
    of [procs].  [getBinary] and [spawn] are taken to return; a process that
    cannot be launched says so with its 'error' event. *)
Definition spawn (w : World) : World :=
  let pid := length (procs w) in
  let w := upd_procs (procs w ++ [{| watchers := [] |}]) w in
  let w := upd_typeCheckProcess (Some pid) w in
  emit (Spawn pid) w.

(** [_startTypeChecking(force)] up to its first [await]. *)
Definition _startTypeChecking_begin (o : nat) (force : bool) (w : World)
  : World :=
  let w := setTypeCheckingStatus CHECKING w in
  upd_starting (starting w ++ [(o, force)]) w.

(** The [catch (e)] block of the non-forced branch: [calculate()] is called
    again and its rejection becomes [null]. *)
Definition _startTypeChecking_catch (calc_catch : list HashJob) (w : World)
  : World * bool * option IChecksums :=
  let currentChecksums :=
    match calculate calc_catch with
    | Resolved hashes => Some hashes
    | Rejected _ => None
    end in
  let w := log "node" WARN ["Error evaluating checksums for node"; name w] w in
  (w, true, currentChecksums).

(** The [try] block of the non-forced branch: what it leaves in [recompile]
    and [currentChecksums], or the exception it ends with. *)
Definition _startTypeChecking_try (calc_try : list HashJob) (w : World)
  : World * Result (bool * IChecksums) :=
  match read (hashFile w) with
  | Rejected e => (w, Throw e)
  | Resolved oldChecksums =>
      match calculate calc_try with
      | Rejected e => (w, Throw e)
      | Resolved currentChecksums =>
          let w := upd_checksums (Some currentChecksums) w in
          match compare oldChecksums (Some currentChecksums) with
          | Throw e => (w, Throw e)
          | Ok recompile => (w, Ok (recompile, currentChecksums))
          end
      end
  end.

(** [_startTypeChecking(force)] from its first [await] to its [return].
    [read()] finds [hashFile]; [calc_try] and [calc_catch] are the hashing
    jobs of the [calculate()] call in the [try] block and of the one in the
    [catch] block, for the case the call is made.  The result is [action]:
    [recompile] and [checksums]. *)
Definition _startTypeChecking_resume (force : bool)
    (calc_try calc_catch : list HashJob) (w : World)
  : World * bool * option IChecksums :=
  let '(w, recompile, currentChecksums) :=
    if negb force then
      let '(w, recompile, currentChecksums) :=
        match _startTypeChecking_try calc_try w with
        | (w, Ok (recompile, currentChecksums)) =>
            (w, recompile, Some currentChecksums)
        | (w, Throw _) => _startTypeChecking_catch calc_catch w
        end in
      let w :=
        log "node" INFO ["Safe-compiling performing type-checks"; name w] w in
      (w, recompile, currentChecksums)
    else
      match calculate calc_try with
      | Resolved currentChecksums => (w, true, Some currentChecksums)
      | Rejected _ =>
          let w :=
            log "node" WARN ["Error evaluating checksums for node"; name w] w in
          (w, true, None)
      end in
  let w := if recompile then spawn w else w in
  (w, recompile, currentChecksums).

Definition add_watcher (l : Watcher) (p : ChildProcess) : ChildProcess :=
  {| watchers := watchers p ++ [l] |}.

(** [_watchTypeChecking().subscribe(...)] for the subscriber [o]: the two
    listeners go on [this.typeCheckProcess].  When that field is
    [undefined], [this.typeCheckProcess.on] throws inside the subscribe
    function and rxjs hands the exception to the [error] callback, which
    passes it on to [o]. *)
Definition _watchTypeChecking (o : nat) (r : Role) (w : World) : World :=
  match typeCheckProcess w with
  | None => emit (Observer o OnError) w
  | Some pid =>
      let l := {| observer := o; role := r; stopped := false |} in
      upd_procs (alter (add_watcher l) pid (procs w)) w
  end.

(** The first entry of the logs of a skipped type-check. *)
Definition skip_notice : string :=
  "Safe-compilation skipped, sources did not change since last type check. "
  +:+ "Checksums:".

(** The [then((action) => ...)] callback of [performTypeChecking]. *)
Definition performTypeChecking_then (o : nat) (recompile : bool)
    (checksums : option IChecksums) (w : World) : World :=
  if recompile then _watchTypeChecking o (Starter checksums) w
  else
    let w :=
      log "node" INFO
          ["Skipped type-checking of " +:+ name w
           +:+ ": sources did not change"] w in
    let w := setTypeCheckingStatus SUCCESS w in
    let w := upd_typeCheckLogs [Line skip_notice; Json (_checksums w)] w in
    let w := emit (Observer o OnNext) w in
    emit (Observer o OnComplete) w.

(** [performTypeChecking(force).subscribe(o)], up to the point where the
    subscribe function returns. *)
Definition performTypeChecking (o : nat) (force : bool) (w : World) : World :=
  match typeCheckStatus w with
  | CHECKING => _watchTypeChecking o Follower w
  | _ => _startTypeChecking_begin o force w
  end.

(** The request of [o] whose [_startTypeChecking] is at its [await]. *)
Definition is_for (o : nat) {A : Type} (entry : nat * A) : bool :=
  Nat.eqb (fst entry) o.

(** The awaited reads of [o]'s [_startTypeChecking] have settled: the rest
    of that function runs, then the [then] callback of
    [performTypeChecking].  Both are promise reactions, so no listener of a
    process runs between them.  The function touches the node only after
    its last [await], so its continuation is one step; [read()] is taken to
    find the file as it is at that step. *)
Definition startResolved (o : nat) (calc_try calc_catch : list HashJob)
    (w : World) : World :=
  match find (is_for o) (starting w) with
  | None => w
  | Some (_, force) =>
      let others := List.filter (fun e => negb (is_for o e)) (starting w) in
      let w := upd_starting others w in
      let '(w, recompile, checksums) :=
        _startTypeChecking_resume force calc_try calc_catch w in
      performTypeChecking_then o recompile checksums w
  end.

(** What the subscription of a watcher does when the observable of
    [_watchTypeChecking] completes. *)
Definition completed (o : nat) (r : Role) (w : World) : World :=
  match r with
  | Starter (Some checksums) =>
      let w := emit (WriteChecksums checksums) w in
      upd_writing (writing w ++ [(o, checksums)]) w
  | Starter None => emit (Observer o OnComplete) w
  | Follower => emit (Observer o OnComplete) w
  end.

Definition stop (l : Watcher) : Watcher :=
  {| observer := observer l; role := role l; stopped := true |}.

(** The 'close' listener of one watcher.  A [null] code (the process was
    killed by a signal) behaves as a non-zero one. *)
Definition closeListener (code : Z) (l : Watcher) (w : World)
  : World * Watcher :=
  if Z.eqb code 0 then
    let w := setTypeCheckingStatus SUCCESS w in
    let w := log "node" INFO ["Package safe-compiled " +:+ name w] w in
    if stopped l then (w, l)
    else
      let w := emit (Observer (observer l) OnNext) w in
      (completed (observer l) (role l) w, stop l)
  else
    let w := setTypeCheckingStatus ERROR w in
    let w := log "node" INFO ["Error safe-compiling " +:+ name w] w in
    if stopped l then (w, l)
    else (emit (Observer (observer l) OnError) w, stop l).

(** The 'error' listener of one watcher. *)
Definition errorListener (err : string) (l : Watcher) (w : World)
  : World * Watcher :=
  let w := log "node" ERR [err] w in
  let w := setTypeCheckingStatus ERROR w in
  let w := log "node" INFO ["Error safe-compiling " +:+ name w; err] w in
  if stopped l then (w, l)
  else (emit (Observer (observer l) OnError) w, stop l).

(** [emit(event)] of a process: its listeners run in registration order. *)
Fixpoint run_listeners (listener : Watcher -> World -> World * Watcher)
    (ls : list Watcher) (w : World) : World * list Watcher :=
  match ls with
  | [] => (w, [])
  | l :: rest =>
      let '(w, l') := listener l w in
      let '(w, rest') := run_listeners listener rest w in
      (w, l' :: rest')
  end.

Definition processEvent (listener : Watcher -> World -> World * Watcher)
    (pid : nat) (w : World) : World :=
  match procs w !! pid with
  | None => w
  | Some p =>
      let '(w, ls) := run_listeners listener (watchers p) w in
      upd_procs (<[pid := {| watchers := ls |}]> (procs w)) w
  end.

(** The pending [write] of [o] settles: the [then] or the [catch] callback
    of [performTypeChecking] runs. *)
Definition writeSettled (o : nat) (r : WriteOutcome) (w : World) : World :=
  match find (is_for o) (writing w) with
  | None => w
  | Some (_, checksums) =>
      let others := List.filter (fun e => negb (is_for o e)) (writing w) in
      let w := upd_writing others w in
      let '(f, p) := write checksums r (hashFile w) in
      let w := upd_hashFile f w in
      match p with
      | Resolved _ =>
          let w := log "node" INFO ["Checksum written"; name w] w in
          let w := upd_checksums (Some checksums) w in
          emit (Observer o OnComplete) w
      | Rejected _ =>
          let w :=
            log "node" WARN
                ["Error caching checksum for node " +:+ name w
                 +:+ ". Next time node will be recompiled event if source "
                 +:+ "does not change"] w in
          emit (Observer o OnComplete) w
      end
  end.

(** *** Transpiling *)

(** [_startTranspiling()]: the promise of [compileFiles] is the next entry
    of [promises]. *)
Definition _startTranspiling (w : World) : World * nat :=
  let w := setTranspilingStatus TRANSPILING w in
  let w :=
    log "node" INFO ["Fast-compiling using transpile-only"; name w] w in
  let p := length (promises w) in
  let pending := {| settled := None; reactions := [] |} in
  let w := upd_promises (promises w ++ [pending]) w in
  (emit (CompileFiles p) w, p).

(** The [then] and [catch] callbacks that [transpile] puts on the promise. *)
Definition transpile_reaction (ok : bool) (o : nat) (w : World) : World :=
  if ok then
    let w := log "node" INFO ["Package transpiled"; name w] w in
    let w := emit (Observer o OnNext) w in
    let w := setTranspilingStatus TRANSPILED w in
    emit (Observer o OnComplete) w
  else
    let w := log "node" INFO ["Error transpiling " +:+ name w] w in
    let w := setTranspilingStatus ERROR_TRANSPILING w in
    emit (Observer o OnError) w.

Definition add_reaction (o : nat) (p : CompilePromise) : CompilePromise :=
  {| settled := settled p; reactions := reactions p ++ [o] |}.

(** [transpile().subscribe(o)].  A reaction put on a promise that has
    settled already runs at once. *)
Definition transpile (o : nat) (w : World) : World :=
  let w :=
    match transpilingStatus w with
    | TRANSPILING => log "node" INFO ["Package already transpiling"; name w] w
    | _ =>
        let '(w, p) := _startTranspiling w in
        upd_transpilingPromise (Some p) w
    end in
  match transpilingPromise w with
  | None => emit (Observer o OnError) w
  | Some p =>
      match promises w !! p with
      | None => w
      | Some {| settled := Some ok |} => transpile_reaction ok o w
      | Some {| settled := None |} =>
          upd_promises (alter (add_reaction o) p (promises w)) w
      end
  end.

(** The promise [p] of [compileFiles] settles: its reactions run in the
    order they were put on it. *)
Definition compileSettled (p : nat) (ok : bool) (w : World) : World :=
  match promises w !! p with
  | Some {| settled := None; reactions := os |} =>
      let done := {| settled := Some ok; reactions := os |} in
      let w := upd_promises (<[p := done]> (promises w)) w in
      fold_left (fun w o => transpile_reaction ok o w) os w
  | _ => w
  end.

(** *** The event loop *)

(** What can happen to a node: a call from the scheduler or a callback
    that the runtime delivers. *)
Inductive Event : Type :=
| RegisterIPC
| PerformTypeChecking (o : nat) (force : bool)
| StartResolved (o : nat) (calc_try calc_catch : list HashJob)
| ProcData (pid : nat) (s : Stream) (data : string)
| ProcClose (pid : nat) (code : Z)
| ProcError (pid : nat) (err : string)
| WriteSettled (o : nat) (r : WriteOutcome)
| Transpile (o : nat)
| CompileSettled (p : nat) (ok : bool).

Definition step (w : World) (e : Event) : World :=
  match e with
  | RegisterIPC => registerIPCServer w
  | PerformTypeChecking o force => performTypeChecking o force w
  | StartResolved o calc_try calc_catch =>
      startResolved o calc_try calc_catch w
  | ProcData pid s data =>
      match procs w !! pid with
      | Some _ => dataListener s data w
      | None => w
      end
  | ProcClose pid code => processEvent (closeListener code) pid w
  | ProcError pid err => processEvent (errorListener err) pid w
  | WriteSettled o r => writeSettled o r w
  | Transpile o => transpile o w
  | CompileSettled p ok => compileSettled p ok w
  end.

Definition run (w : World) (es : list Event) : World := fold_left step es w.

(** The node as its constructor leaves it. *)
Definition fresh (n : string) (f : HashFile) : World :=
  {| name := n; _ipc := false;
     transpilingStatus := NOT_TRANSPILED; transpilingPromise := None;
     typeCheckStatus := NOT_CHECKED; typeCheckProcess := None;
     _typeCheckLogs := []; _checksums := None;
     procs := []; promises := []; hashFile := f;
     starting := []; writing := []; trace := [] |}.

(** *** Reading the trace *)

Definition is_spawn (e : Effect) : bool :=
  match e with Spawn _ => true | _ => false end.

Definition is_write (e : Effect) : bool :=
  match e with WriteChecksums _ => true | _ => false end.

Definition is_graphUpdated (e : Effect) : bool :=
  match e with GraphUpdated => true | _ => false end.

Definition is_typeCheck_next (e : Effect) : bool :=
  match e with TypeCheck_next _ => true | _ => false end.


Definition spawns (w : World) : nat := length (List.filter is_spawn (trace w)).


Definition writes (w : World) : list Effect := List.filter is_write (trace w).

Definition notifications (w : World) : nat :=
  length (List.filter is_graphUpdated (trace w)).

(** Every [write] call of the trace was made right after the node was set
    to [SUCCESS], the logger was told, and the subscriber was handed the
    node: the three calls that the 'close' listener makes, in that order,
    on exit code 0 before it completes. *)
Fixpoint written_after_success (t : list Effect) : Prop :=
  match t with
  | [] => True
  | WriteChecksums _ :: earlier =>
      match earlier with
      | Observer _ OnNext :: Logger _ _ _ :: TypeCheck_next SUCCESS :: _ =>
          written_after_success earlier
      | _ => False
      end
  | _ :: earlier => written_after_success earlier
  end.

(** What the subscriber of a watcher is told first when the process exits
    with [code]. *)
Definition outcome (code : Z) : Notification :=
  if Z.eqb code 0 then OnNext else OnError.

(** The promise [p] of [compileFiles] has not settled. *)
Definition pending (w : World) (p : nat) : Prop :=
  exists pr, promises w !! p = Some pr /\ settled pr = None.





(** The non-forced [_startTypeChecking] finds the sources unchanged: a
    stored object is read, the calculation succeeds and [compare] answers
    [false]. *)
Definition sources_unchanged (w : World) (calc_try : list HashJob) : Prop :=
  exists old current,
    read (hashFile w) = Resolved (Some old) /\
    calculate calc_try = Resolved current /\
    compare (Some old) (Some current) = Ok false.

(** What the subscriber [o] was told, in order. *)
Definition heard (o : nat) (w : World) : list Notification :=
  rev (omap (fun e => match e with
                      | Observer o' n => if Nat.eqb o' o then Some n else None
                      | _ => None
                      end) (trace w)).

End Compilation.

(** ** The reducer of the graph status *)

Module Store.

(** A JavaScript value that the reducer copies without looking at it: a
    compilation status, a service status, a port, the selection of the
    user interface. *)
Inductive Value : Type :=
| Undefined
| Num (n : nat)
| Str (s : string).

(** An entry of [state.packages] and one of [state.services]. *)
Record PackageEntry : Type := {
  p_enabled : bool;
  p_name : string;
  p_compilationStatus : Value
}.

Record ServiceEntry : Type := {
  s_enabled : bool;
  s_name : string;
  s_compilationStatus : Value;
  s_status : Value;
  s_port : Value
}.

(** What the reducer asks of a node and of the graph. *)
Record LernaNode : Type := {
  isEnabled : bool;
  getName : string;
  getCompilationStatus : Value;
  getStatus : Value
}.

Record LernaGraph : Type := {
  getPackages : list LernaNode;
  getServices : list LernaNode;
  getPort : string -> Value
}.

(** The entry objects that exist.  A state holds references to them: the
    index of the object. *)
Record Heap : Type := {
  package_objects : list PackageEntry;
  service_objects : list ServiceEntry
}.

Record IState : Type := {
  packages : list nat;
  services : list nat;
  nodeSelected : Value;
  actionPanelOpen : Value;
  actionSelected : Value
}.

Inductive IGraphAction : Type :=
| SET_GRAPH (graph : LernaGraph)
| UPDATE_PACKAGE_STATUS (node : LernaNode)
| UPDATE_SERVICE_STATUS (service : LernaNode)
| OTHER.

Definition package_of (pkg : LernaNode) : PackageEntry :=
  {| p_enabled := isEnabled pkg; p_name := getName pkg;
     p_compilationStatus := getCompilationStatus pkg |}.

Definition service_of (graph : LernaGraph) (pkg : LernaNode) : ServiceEntry :=
  {| s_enabled := isEnabled pkg; s_name := getName pkg;
     s_compilationStatus := getCompilationStatus pkg;
     s_status := getStatus pkg; s_port := getPort graph (getName pkg) |}.

(** [refs.find((pkg) => pkg.name === n)] on an array of references. *)
Definition find_named {A : Type} (objects : list A) (name_of : A -> string)
    (n : string) (refs : list nat) : option nat :=
  find (fun r => match objects !! r with
                 | Some entry => String.eqb (name_of entry) n
                 | None => false
                 end) refs.

(** The assignments to [toUpdate] and to [serviceToUpdate]. *)
Definition update_package (node : LernaNode) (entry : PackageEntry)
  : PackageEntry :=
  {| p_enabled := isEnabled node; p_name := p_name entry;
     p_compilationStatus := getCompilationStatus node |}.

Definition update_service (service : LernaNode) (entry : ServiceEntry)
  : ServiceEntry :=
  {| s_enabled := isEnabled service; s_name := s_name entry;
     s_compilationStatus := getCompilationStatus service;
     s_status := getStatus service; s_port := s_port entry |}.

(** [graphStatus(state, action)].  The arrays [[...state.packages]] and
    [[...state.services]] are new arrays of the same references. *)
Definition graphStatus (h : Heap) (state : IState) (action : IGraphAction)
  : Heap * IState :=
  match action with
  | SET_GRAPH graph =>
      let ps := map package_of (getPackages graph) in
      let ss := map (service_of graph) (getServices graph) in
      ({| package_objects := package_objects h ++ ps;
          service_objects := service_objects h ++ ss |},
       {| packages := seq (length (package_objects h)) (length ps);
          services := seq (length (service_objects h)) (length ss);
          nodeSelected := nodeSelected state;
          actionPanelOpen := actionPanelOpen state;
          actionSelected := actionSelected state |})
  | UPDATE_PACKAGE_STATUS node =>
      let packages := packages state in
      let toUpdate :=
        find_named (package_objects h) p_name (getName node) packages in
      let h :=
        match toUpdate with
        | Some r =>
            {| package_objects :=
                 alter (update_package node) r (package_objects h);
               service_objects := service_objects h |}
        | None => h
        end in
      (h, {| packages := packages; services := services state;
             nodeSelected := nodeSelected state;
             actionPanelOpen := actionPanelOpen state;
             actionSelected := actionSelected state |})
  | UPDATE_SERVICE_STATUS service =>
      let services := services state in
      let serviceToUpdate :=
        find_named (service_objects h) s_name (getName service) services in
      let h :=
        match serviceToUpdate with
        | Some r =>
            {| package_objects := package_objects h;
               service_objects :=
                 alter (update_service service) r (service_objects h) |}
        | None => h
        end in
      (h, {| packages := packages state; services := services;
             nodeSelected := nodeSelected state;
             actionPanelOpen := actionPanelOpen state;
             actionSelected := actionSelected state |})
  | OTHER => (h, state)
  end.

(** The entries that the references [refs] point to. *)
Definition entries {A : Type} (objects : list A) (refs : list nat)
  : list (option A) :=
  map (fun r => objects !! r) refs.

(** [l] with [f] applied to its first element that [hit] holds of. *)
Fixpoint update_first {A : Type} (hit : A -> bool) (f : A -> A) (l : list A)
  : list A :=
  match l with
  | [] => []
  | x :: rest => if hit x then f x :: rest else x :: update_first hit f rest
  end.

Definition is_named {A : Type} (name_of : A -> string) (n : string) (x : A)
  : bool :=
  String.eqb (name_of x) n.

End Store.

(** ** get-custom-domain.ts: the latency record *)

Module Route53.

Record ResourceRecordSet : Type := {
  Name : option string;
  Type_ : option string;
  Region : option string;
  ResourceRecords : option (list (option string))  (* the [Value]s *)
}.

Record ListResourceRecordSetsResponse : Type := {
  ResourceRecordSets : option (list ResourceRecordSet);
  IsTruncated : option bool;
  NextRecordName : option string;
  NextRecordType : option string
}.

(** [route53.send(new ListResourceRecordSetsCommand(params))] for the
    hosted zone, as a function of [StartRecordName] and
    [StartRecordType]. *)
Definition Client : Type :=
  option string -> option string -> Promise ListResourceRecordSetsResponse.

(** [x === s] for [x] a string or [undefined]. *)
Definition strict_eq (x : option string) (s : string) : bool :=
  match x with
  | Some x => String.eqb x s
  | None => false
  end.

(** [s.endsWith(".")]. *)
Fixpoint endsWith_dot (s : string) : bool :=
  match s with
  | EmptyString => false
  | String c EmptyString => Ascii.eqb c "."%char
  | String _ rest => endsWith_dot rest
  end.

(** The callback of [ResourceRecordSets?.find]. *)
Definition is_latency_record (domain apiGatewayUrl region : string)
    (r : ResourceRecordSet) : bool :=
  strict_eq (Type_ r) "CNAME"
  && strict_eq (Name r) ((if endsWith_dot domain then domain else domain)
                         +:+ ".")
  && strict_eq (Region r) region
  && match ResourceRecords r with
     | Some records => existsb (fun rr => strict_eq rr apiGatewayUrl) records
     | None => false
     end.

Definition truthy (b : option bool) : bool :=
  match b with Some true => true | _ => false end.

(** [found] after a page. *)
Definition find_in (domain apiGatewayUrl region : string)
    (result : ListResourceRecordSetsResponse) : option ResourceRecordSet :=
  match ResourceRecordSets result with
  | Some records => find (is_latency_record domain apiGatewayUrl region) records
  | None => None
  end.

(** The [do ... while (isTruncated && !found)] loop of [getLatencyRecord],
    entered with [nextRecordName] and [nextRecordType]; [requests] bounds
    the number of pages that are asked for, and [None] says that this was
    not enough for the loop to end. *)
Fixpoint pages (requests : nat) (route53 : Client)
    (domain apiGatewayUrl region : string)
    (nextRecordName nextRecordType : option string)
  : option (Promise (option ResourceRecordSet)) :=
  match requests with
  | 0 => None
  | S requests =>
      match route53 nextRecordName nextRecordType with
      | Rejected e => Some (Rejected e)
      | Resolved result =>
          let found := find_in domain apiGatewayUrl region result in
          if truthy (IsTruncated result) && negb (match found with Some _ => true | None => false end) then
            pages requests route53 domain apiGatewayUrl region
                  (NextRecordName result) (NextRecordType result)
          else Some (Resolved found)
      end
  end.

Definition getLatencyRecord (requests : nat) (route53 : Client)
    (domain apiGatewayUrl region : string)
  : option (Promise (option ResourceRecordSet)) :=
  pages requests route53 domain apiGatewayUrl region None None.

(** The [StartRecordName] and [StartRecordType] of the request number [n],
    counted from 0, when the requests before it were answered. *)
Fixpoint start_of (route53 : Client) (n : nat)
  : option string * option string :=
  match n with
  | 0 => (None, None)
  | S n =>
      let '(recordName, recordType) := start_of route53 n in
      match route53 recordName recordType with
      | Resolved result => (NextRecordName result, NextRecordType result)
      | Rejected _ => (None, None)
      end
  end.

(** The answer to the request number [n]. *)
Definition page (route53 : Client) (n : nat)
  : Promise ListResourceRecordSetsResponse :=
  let '(recordName, recordType) := start_of route53 n in
  route53 recordName recordType.

End Route53.

(** * Example data *)

Module Examples.
Import Checksums Graph.

(** Two entries written in either order. *)
Definition two_sources : IChecksums :=
  [("src/index.ts", "9f2c"); ("src/handler.ts", "41aa")].

Definition two_sources_swapped : IChecksums :=
  [("src/handler.ts", "41aa"); ("src/index.ts", "9f2c")].

Definition package_a : Workspace :=
  {| ws_name := "@project/a"; ws_version := "1.0.0"; ws_private := true;
     cwd := "/project/packages/a";
     manifest_dependencies := ["@project/b"];
     manifest_devDependencies := ["typescript"];
     isService := false |}.

Definition package_b : Workspace :=
  {| ws_name := "@project/b"; ws_version := "1.0.0"; ws_private := true;
     cwd := "/project/packages/b";
     manifest_dependencies := ["@project/a"];
     manifest_devDependencies := ["typescript"];
     isService := false |}.

(** A depends on B and B depends on A. *)
Definition a_and_b : Project := [package_a; package_b].

Definition in_a_and_b (n : string) : bool :=
  String.eqb n "@project/a" || String.eqb n "@project/b".

(** An acyclic project: [svc] depends on [lib], [lib] on [core]. *)
Definition workspace (n : string) (deps : list string) (service : bool)
  : Workspace :=
  {| ws_name := n; ws_version := "0.1.0"; ws_private := true;
     cwd := "/project/" +:+ n;
     manifest_dependencies := deps;
     manifest_devDependencies := ["typescript"];
     isService := service |}.

Definition svc : Workspace := workspace "svc" ["lodash"; "lib"] true.

Definition core_lib_svc : Project :=
  [workspace "core" [] false; workspace "lib" ["core"] false; svc].

(** The nodes the constructor builds for [svc]. *)
Definition core_node : Node :=
  {| kind := Package; name := "core"; version := "0.1.0"; private := true;
     location := "/project/core"; nodeStatus := DISABLED;
     transpilingStatus := NOT_TRANSPILED; typeCheckStatus := NOT_CHECKED;
     dependencies := [] |}.

Definition lib_node : Node :=
  {| kind := Package; name := "lib"; version := "0.1.0"; private := true;
     location := "/project/lib"; nodeStatus := DISABLED;
     transpilingStatus := NOT_TRANSPILED; typeCheckStatus := NOT_CHECKED;
     dependencies := [core_node] |}.

Definition svc_node : Node :=
  {| kind := Service; name := "svc"; version := "0.1.0"; private := true;
     location := "/project/svc"; nodeStatus := DISABLED;
     transpilingStatus := NOT_TRANSPILED; typeCheckStatus := NOT_CHECKED;
     dependencies := [lib_node] |}.

Definition core_lib_svc_nodes : list Node := [core_node; lib_node; svc_node].

(** [svc] above [lib] above [core]. *)
Definition level (n : string) : nat :=
  if String.eqb n "svc" then 2 else if String.eqb n "lib" then 1 else 0.

(** The sources of a small service, hashed in the order the jobs ended. *)
Definition hashing : list HashJob :=
  [("src/handler.ts", Some "41aa"); ("src/index.ts", Some "9f2c")].

(** A service that was never type-checked, with no cache file, with a
    corrupt one, and with one that holds the hashes of [hashing]. *)
Definition service : Compilation.World :=
  Compilation.fresh "@project/service" NoFile.


Definition service_cached : Compilation.World :=
  Compilation.fresh "@project/service" (Stored two_sources).

(** Two packages in the store and a node whose status changed. *)
Definition two_packages : Store.Heap :=
  {| Store.package_objects :=
       [{| Store.p_enabled := true; Store.p_name := "@project/core";
           Store.p_compilationStatus := Store.Str "COMPILED" |};
        {| Store.p_enabled := true; Store.p_name := "@project/lib";
           Store.p_compilationStatus := Store.Str "COMPILING" |}];
     Store.service_objects := [] |}.

Definition two_packages_state : Store.IState :=
  {| Store.packages := [0; 1]; Store.services := [];
     Store.nodeSelected := Store.Undefined;
     Store.actionPanelOpen := Store.Undefined;
     Store.actionSelected := Store.Undefined |}.

Definition lib_compiled : Store.LernaNode :=
  {| Store.isEnabled := true; Store.getName := "@project/lib";
     Store.getCompilationStatus := Store.Str "COMPILED";
     Store.getStatus := Store.Undefined |}.

(** A service in the store and the same service once it has started. *)
Definition one_service : Store.Heap :=
  {| Store.package_objects := [];
     Store.service_objects :=
       [{| Store.s_enabled := true; Store.s_name := "@project/svc";
           Store.s_compilationStatus := Store.Str "COMPILED";
           Store.s_status := Store.Str "STARTING";
           Store.s_port := Store.Num 3001 |}] |}.

Definition one_service_state : Store.IState :=
  {| Store.packages := []; Store.services := [0];
     Store.nodeSelected := Store.Undefined;
     Store.actionPanelOpen := Store.Undefined;
     Store.actionSelected := Store.Undefined |}.

Definition svc_running : Store.LernaNode :=
  {| Store.isEnabled := true; Store.getName := "@project/svc";
     Store.getCompilationStatus := Store.Str "COMPILED";
     Store.getStatus := Store.Str "RUNNING" |}.

(** A hosted zone that answers with two pages: the latency record of
    [api.example.com] is on the second. *)
Definition latency_record : Route53.ResourceRecordSet :=
  {| Route53.Name := Some "api.example.com.";
     Route53.Type_ := Some "CNAME";
     Route53.Region := Some "eu-west-1";
     Route53.ResourceRecords := Some [Some "d-1.execute-api.amazonaws.com"] |}.

Definition first_page : Route53.ListResourceRecordSetsResponse :=
  {| Route53.ResourceRecordSets :=
       Some [{| Route53.Name := Some "example.com.";
                Route53.Type_ := Some "NS";
                Route53.Region := None;
                Route53.ResourceRecords := Some [Some "ns-1.awsdns.com"] |}];
     Route53.IsTruncated := Some true;
     Route53.NextRecordName := Some "api.example.com.";
     Route53.NextRecordType := Some "CNAME" |}.

Definition second_page : Route53.ListResourceRecordSetsResponse :=
  {| Route53.ResourceRecordSets := Some [latency_record];
     Route53.IsTruncated := Some false;
     Route53.NextRecordName := None;
     Route53.NextRecordType := None |}.

Definition zone : Route53.Client :=
  fun recordName _ =>
    match recordName with
    | None => Resolved first_page
    | Some _ => Resolved second_page
    end.

End Examples.

(** * Properties *)

(** ** The fingerprint comparison *)

Section CompareFacts.
Import Checksums.

Lemma includes_In (l : list string) (key : string) :
  includes l key = true <-> In key l.
Proof.
  unfold includes. rewrite existsb_exists. split.
  - intros [x [Hin Heq]]. apply String.eqb_eq in Heq. now subst.
  - intros Hin. exists key. split; [assumption | apply String.eqb_refl].
Qed.

Lemma strict_neq_false (a b : option string) :
  strict_neq a b = false <-> a = b.
Proof.
  destruct a as [x|], b as [y|]; simpl; split; intros H;
    try discriminate; try reflexivity.
  - apply negb_false_iff, String.eqb_eq in H. now subst.
  - inversion H; subst. now rewrite String.eqb_refl.
Qed.

Lemma get_In_keys (o : IChecksums) (key : string) :
  In key (keys o) <-> exists h, get o key = Some h.
Proof.
  induction o as [|[k v] rest IH]; simpl.
  - split; [tauto | intros [h H]; discriminate].
  - destruct (String.eqb_spec k key) as [->|Hne].
    + split; [intros _; now exists v | intros _; now left].
    + rewrite <- IH. split; [intros [H|H]; [contradiction | assumption] | tauto].
Qed.

(** With unique keys, [get] reads exactly the entries of the object. *)
Lemma get_In_entry (o : IChecksums) (key h : string) :
  wf o -> (get o key = Some h <-> In (key, h) o).
Proof.
  unfold wf. induction o as [|[k v] rest IH]; simpl; intros Hnd.
  - split; [discriminate | tauto].
  - inversion Hnd as [|? ? Hnotin Hnd']; subst.
    destruct (String.eqb_spec k key) as [->|Hne].
    + split.
      * intros H; inversion H; subst; now left.
      * intros [H|H]; [now inversion H |].
        exfalso. apply Hnotin. apply in_map_iff. now exists (key, h).
    + rewrite (IH Hnd'). split; [tauto |].
      intros [H|H]; [inversion H; subst; contradiction | assumption].
Qed.

(** The loop answers [false] exactly when every key it visits is a key of
    [old] with the same value on both sides. *)
Lemma compare_loop_false (old current : IChecksums) (ks : list string) :
  compare_loop old current (keys old) ks = false <->
  forall key, In key ks ->
    In key (keys old) /\ get old key = get current key.
Proof.
  induction ks as [|k rest IH]; simpl.
  - split; [intros _ key [] | reflexivity].
  - destruct (includes (keys old) k) eqn:Hinc; simpl.
    + apply includes_In in Hinc.
      destruct (strict_neq (get old k) (get current k)) eqn:Hneq.
      * split; [discriminate |]. intros H.
        destruct (H k (or_introl eq_refl)) as [_ Heq].
        apply strict_neq_false in Heq. congruence.
      * apply strict_neq_false in Hneq. rewrite IH. split.
        -- intros H key [<-|Hin]; [now split | now apply H].
        -- intros H key Hin. apply H. now right.
    + split; [discriminate |]. intros H.
      destruct (H k (or_introl eq_refl)) as [Hin _].
      apply includes_In in Hin. congruence.
Qed.

(** Two objects with as many keys, the keys of [current] unique and all
    among those of [old]: the key sets coincide. *)
Lemma same_keys (old current : IChecksums) :
  wf current ->
  length (keys old) = length (keys current) ->
  (forall key, In key (keys current) -> In key (keys old)) ->
  forall key, In key (keys old) -> In key (keys current).
Proof.
  intros Hwf Hlen Hincl.
  apply (NoDup_length_incl Hwf); [lia | exact Hincl].
Qed.

End CompareFacts.

Section CompareSpec.
Import Checksums Examples.

Lemma compare_loop_true (old current : IChecksums) (ks : list string) :
  compare_loop old current (keys old) ks = true ->
  exists key, In key ks /\
    (~ In key (keys old) \/
     (In key (keys old) /\ get old key <> get current key)).
Proof.
  induction ks as [|k rest IH]; simpl; [discriminate |].
  destruct (includes (keys old) k) eqn:Hinc; simpl.
  - apply includes_In in Hinc.
    destruct (strict_neq (get old k) (get current k)) eqn:Hneq.
    + intros _. exists k. split; [now left |]. right. split; [assumption |].
      intros Heq. apply strict_neq_false in Heq. congruence.
    + intros H. destruct (IH H) as [key [Hin Hkey]].
      exists key. split; [now right | assumption].
  - intros _. exists k. split; [now left |]. left.
    intros Hin. apply includes_In in Hin. congruence.
Qed.

Lemma permuted_get (old current : IChecksums) (key : string) :
  wf current -> Permutation old current -> get old key = get current key.
Proof.
  intros Hwf Hperm.
  assert (Hwf' : wf old).
  { unfold wf, keys in *. eapply Permutation_NoDup; [| exact Hwf].
    apply Permutation_map. now apply Permutation_sym. }
  assert (H : forall h, get old key = Some h <-> get current key = Some h).
  { intros h. rewrite (get_In_entry old key h Hwf').
    rewrite (get_In_entry current key h Hwf). split; intros Hin.
    - eapply Permutation_in; eassumption.
    - eapply Permutation_in; [apply Permutation_sym |]; eassumption. }
  destruct (get current key) as [h'|].
  - now apply H.
  - destruct (get old key) as [h|]; [| reflexivity].
    symmetry. now apply (H h).
Qed.

Lemma keys_set (o : IChecksums) (key h : string) :
  keys (set o key h) = if includes (keys o) key then keys o else keys o ++ [key].
Proof.
  unfold includes. induction o as [|[k v] rest IH]; simpl; [reflexivity |].
  destruct (String.eqb_spec k key) as [->|Hne]; simpl.
  - now rewrite String.eqb_refl.
  - assert (Hkey : String.eqb key k = false)
      by (apply String.eqb_neq; congruence).
    rewrite IH, Hkey. simpl.
    now destruct (existsb (String.eqb key) (keys rest)).
Qed.

Lemma set_wf (o : IChecksums) (key h : string) : wf o -> wf (set o key h).
Proof.
  unfold wf. intros Hwf. rewrite keys_set.
  destruct (includes (keys o) key) eqn:Hinc; [exact Hwf |].
  apply NoDup_ListNoDup, NoDup_app. repeat split.
  - now apply NoDup_ListNoDup.
  - intros x Hx Hkey. apply list_elem_of_In in Hx, Hkey.
    destruct Hkey as [<-|[]].
    apply includes_In in Hx. congruence.
  - apply NoDup_ListNoDup. constructor; [intros [] | constructor].
Qed.

(** The object that [calculate()] resolves to has unique keys: [compare]
    is always called on a well-formed [current]. *)
Lemma calculate_wf (jobs : list HashJob) (hashes : IChecksums) :
  calculate jobs = Resolved hashes -> wf hashes.
Proof.
  unfold calculate.
  assert (H : forall acc, wf acc ->
                calculate_from acc jobs = Resolved hashes -> wf hashes).
  { induction jobs as [|[src [digest|]] rest IH]; intros acc Hacc; simpl.
    - intros E; inversion E; now subst.
    - apply IH. now apply set_wf.
    - discriminate. }
  apply H. constructor.
Qed.

(** An object compared with a reordering of itself is unchanged. *)
Lemma compare_permuted (old current : IChecksums) :
  wf current -> Permutation old current ->
  compare (Some old) (Some current) = Ok false.
Proof.
  intros Hwf Hperm. simpl.
  assert (Hlen : length (keys old) = length (keys current)).
  { unfold keys. rewrite !length_map. now apply Permutation_length. }
  rewrite Hlen, Nat.eqb_refl. simpl. f_equal.
  apply compare_loop_false. intros key Hin. split.
  - unfold keys in *. eapply Permutation_in; [| exact Hin].
    apply Permutation_map. now apply Permutation_sym.
  - now apply permuted_get.
Qed.

Lemma set_new_key (o : IChecksums) (key h : string) :
  ~ In key (keys o) -> set o key h = o ++ [(key, h)].
Proof.
  induction o as [|[k v] rest IH]; simpl; intros Hnew; [reflexivity |].
  destruct (String.eqb_spec k key) as [->|Hne].
  - exfalso. apply Hnew. now left.
  - rewrite IH; [reflexivity |]. intros Hin. apply Hnew. now right.
Qed.

(** Hashing distinct sources without failure yields the entries in the
    order the jobs completed. *)
Lemma calculate_distinct (entries : IChecksums) :
  wf entries -> calculate (map hashed entries) = Resolved entries.
Proof.
  unfold calculate.
  assert (H : forall acc, wf (acc ++ entries) ->
                calculate_from acc (map hashed entries)
                = Resolved (acc ++ entries)).
  { induction entries as [|[src digest] rest IH]; intros acc Hwf; simpl.
    - now rewrite app_nil_r.
    - rewrite set_new_key.
      + rewrite IH; rewrite <- app_assoc; [reflexivity | exact Hwf].
      + unfold wf, keys in Hwf. rewrite map_app in Hwf. simpl in Hwf.
        apply NoDup_remove_2 in Hwf. intros Hin. apply Hwf.
        apply in_or_app. now left. }
  intros Hwf. exact (H [] Hwf).
Qed.

(** The same sources hashed twice, the jobs completing in another order
    the second time: [compare] finds them unchanged. *)
Lemma completion_order_is_irrelevant (entries entries' : IChecksums) :
  wf entries' -> Permutation entries entries' ->
  exists old current,
    calculate (map hashed entries) = Resolved old /\
    calculate (map hashed entries') = Resolved current /\
    compare (Some old) (Some current) = Ok false.
Proof.
  intros Hwf Hperm. exists entries, entries'.
  assert (Hwf0 : wf entries).
  { unfold wf, keys in *. eapply Permutation_NoDup; [| exact Hwf].
    apply Permutation_map. now apply Permutation_sym. }
  repeat split; try now apply calculate_distinct.
  now apply compare_permuted.
Qed.

(** C3.  [compare(old, current)] on a present [current] returns a boolean,
    and that boolean is [true] (recompile) exactly when [old] is absent, or
    the two objects have different numbers of keys, or a key of one is
    missing from the other, or a key of both has different hashes.  It is
    [false] (unchanged) whenever [old] holds the same key/hash entries as
    [current] in another order. *)
Theorem compare_spec (old : option IChecksums) (current : IChecksums) :
  wf current ->
  exists b, compare old (Some current) = Ok b /\
    (b = true <->
       old = None \/
       exists o, old = Some o /\
         (length (keys o) <> length (keys current)
          \/ (exists key, In key (keys o) /\ ~ In key (keys current))
          \/ (exists key, In key (keys current) /\ ~ In key (keys o))
          \/ (exists key h h',
                get o key = Some h /\ get current key = Some h' /\ h <> h')))
    /\ (forall o, old = Some o -> Permutation o current -> b = false).
Proof.
  intros Hwf. destruct old as [o|]; simpl.
  2:{ exists true. repeat split; [now left | discriminate]. }
  destruct (Nat.eqb_spec (length (keys o)) (length (keys current)))
    as [Hlen|Hlen]; simpl.
  - exists (compare_loop o current (keys o) (keys current)).
    split; [reflexivity |]. split; [split |].
    + intros Hb. right. exists o. split; [reflexivity |].
      destruct (compare_loop_true _ _ _ Hb) as [key [Hin [Hmiss|[Hold Hne]]]].
      * right. right. left. now exists key.
      * right. right. right.
        destruct (proj1 (get_In_keys o key) Hold) as [h Hh].
        destruct (proj1 (get_In_keys current key) Hin) as [h' Hh'].
        exists key, h, h'. repeat split; try assumption. congruence.
    + intros [Habs|[o' [Ho' Hdiff]]]; [discriminate |].
      inversion Ho'; subst o'; clear Ho'.
      destruct (compare_loop o current (keys o) (keys current)) eqn:Hb;
        [reflexivity | exfalso].
      pose proof (proj1 (compare_loop_false _ _ _) Hb) as Hall.
      assert (Hback := same_keys o current Hwf Hlen (fun k Hk => proj1 (Hall k Hk))).
      destruct Hdiff
        as [Hd|[[key [Hin Hout]]|[[key [Hin Hout]]|[key [h [h' [Hh [Hh' Hne]]]]]]]].
      * contradiction.
      * apply Hout, Hback, Hin.
      * apply Hout. exact (proj1 (Hall key Hin)).
      * assert (Hin : In key (keys current)).
        { apply get_In_keys. now exists h'. }
        destruct (Hall key Hin) as [_ Heq]. congruence.
    + intros o' Ho' Hperm. inversion Ho'; subst o'; clear Ho'.
      pose proof (compare_permuted o current Hwf Hperm) as Hcmp.
      simpl in Hcmp. rewrite Hlen, Nat.eqb_refl in Hcmp. simpl in Hcmp.
      congruence.
  - exists true. split; [reflexivity |]. split; [split |].
    + intros _. right. exists o. split; [reflexivity | now left].
    + reflexivity.
    + intros o' Ho' Hperm. inversion Ho'; subst o'; clear Ho'.
      exfalso. apply Hlen. unfold keys. rewrite !length_map.
      now apply Permutation_length.
Qed.

Lemma two_sources_swapped_wf : wf two_sources_swapped.
Proof.
  unfold wf, two_sources_swapped; simpl.
  constructor; [simpl; intros [H|[]]; discriminate |].
  constructor; [simpl; intros [] |]. constructor.
Defined.

Lemma compare_spec_witness :
  wf two_sources_swapped /\
  exists b, compare (Some two_sources) (Some two_sources_swapped) = Ok b /\
    (b = true <->
       Some two_sources = None \/
       exists o, Some two_sources = Some o /\
         (length (keys o) <> length (keys two_sources_swapped)
          \/ (exists key, In key (keys o) /\ ~ In key (keys two_sources_swapped))
          \/ (exists key, In key (keys two_sources_swapped) /\ ~ In key (keys o))
          \/ (exists key h h',
                get o key = Some h /\ get two_sources_swapped key = Some h'
                /\ h <> h')))
    /\ (forall o, Some two_sources = Some o ->
                  Permutation o two_sources_swapped -> b = false).
Proof.
  split; [exact two_sources_swapped_wf |].
  exact (compare_spec (Some two_sources) two_sources_swapped
                      two_sources_swapped_wf).
Defined.

(** C10.  [compare] throws a [TypeError] when [old] is present and
    [current] is [null], and returns a boolean for every present [current].
    In [_startTypeChecking] the call is made on the object that
    [calculate()] resolved to: whenever [read()] and [calculate()] resolve,
    [compare] returns and its verdict is the [recompile] of the action, and
    an exception that ends the [try] block is always the rejection of
    [read()] or of [calculate()], never one thrown by [compare]. *)
Theorem compare_throws_only_on_null_current :
  (forall o, compare (Some o) None = Throw TypeError) /\
  (forall old c, exists b, compare old (Some c) = Ok b) /\
  (forall w calc_try old c,
     read (Compilation.hashFile w) = Resolved old ->
     calculate calc_try = Resolved c ->
     exists b,
       compare old (Some c) = Ok b /\
       snd (Compilation._startTypeChecking_try calc_try w) = Ok (b, c)) /\
  (forall w calc_try e,
     snd (Compilation._startTypeChecking_try calc_try w) = Throw e ->
     read (Compilation.hashFile w) = Rejected e \/
     calculate calc_try = Rejected e).
Proof.
  assert (Htotal : forall old c, exists b, compare old (Some c) = Ok b).
  { intros [o|] c; simpl; [| now exists true]. destruct (negb _); eauto. }
  split; [reflexivity |]. split; [exact Htotal |]. split.
  - intros w calc_try old c Hread Hcalc.
    destruct (Htotal old c) as [b Hb]. exists b. split; [exact Hb |].
    unfold Compilation._startTypeChecking_try.
    now rewrite Hread, Hcalc, Hb.
  - intros w calc_try e. unfold Compilation._startTypeChecking_try.
    destruct (read (Compilation.hashFile w)) as [old|e1];
      [| simpl; intros H; left; congruence].
    destruct (calculate calc_try) as [c|e2];
      [| simpl; intros H; right; congruence].
    destruct (Htotal old c) as [b Hb]. rewrite Hb. discriminate.
Qed.

Lemma compare_throws_only_on_null_current_witness :
  exists b,
    compare (Some two_sources) (Some two_sources_swapped) = Ok b /\
    snd (Compilation._startTypeChecking_try hashing service_cached)
      = Ok (b, two_sources_swapped).
Proof.
  exact (proj1 (proj2 (proj2 compare_throws_only_on_null_current))
           service_cached hashing (Some two_sources) two_sources_swapped
           eq_refl eq_refl).
Defined.

End CompareSpec.

(** ** Node construction *)

Section Construction.
Import Graph.

Variable project : Project.

(** A set of names, each of whose workspaces declares a dependency on a
    workspace of the set: the names on a dependency cycle form one. *)
Variable on_cycle : string -> bool.

Hypothesis on_cycle_closed :
  forall w, In w project -> on_cycle (ws_name w) = true ->
    exists d w', In d (declared w) /\ on_cycle d = true /\
                 workspace_named project d = Some w'.

(** No node of the set has been built. *)
Local Abbreviation none_built := (Graph.none_built on_cycle).

Lemma resolve_keeps_none_built
    (build : Kind -> Workspace -> list Node -> option (Node * list Node)) :
  (forall k w nodes r nodes',
     In w project -> none_built nodes ->
     build k w nodes = Some (r, nodes') ->
     on_cycle (ws_name w) = false /\ none_built nodes') ->
  forall descriptors nodes acc deps nodes',
    none_built nodes ->
    resolve build project descriptors nodes acc = Some (deps, nodes') ->
    none_built nodes' /\
    forall d, In d descriptors -> on_cycle d = true ->
              workspace_named project d = None.
Proof.
  intros Hbuild. induction descriptors as [|d rest IH];
    intros nodes acc deps nodes' Hnone; simpl.
  - intros H; inversion H; subst. split; [assumption | intros ? []].
  - destruct (find (fun n => String.eqb (name n) d) nodes) as [n|] eqn:Hbuilt.
    + intros H. destruct (IH _ _ _ _ Hnone H) as [Hnone' Hrest].
      split; [assumption |]. intros d' [<-|Hin] Hd; [| now apply Hrest].
      apply find_some in Hbuilt. destruct Hbuilt as [Hin Hname].
      apply String.eqb_eq in Hname. rewrite <- Hname in Hd.
      rewrite (Hnone n Hin) in Hd. discriminate.
    + destruct (workspace_named project d) as [w|] eqn:Hws.
      * destruct (build _ w nodes) as [[child nodes1]|] eqn:Hchild;
          [| discriminate].
        assert (Hw : In w project /\ ws_name w = d).
        { unfold workspace_named in Hws. apply find_some in Hws.
          destruct Hws as [Hin Hname].
          apply String.eqb_eq in Hname. now split. }
        destruct Hw as [Hw Hname].
        destruct (Hbuild _ _ _ _ _ Hw Hnone Hchild) as [Hoff Hnone1].
        intros H. destruct (IH _ _ _ _ Hnone1 H) as [Hnone' Hrest].
        split; [assumption |]. intros d' [<-|Hin] Hd; [| now apply Hrest].
        rewrite Hname in Hoff. congruence.
      * intros H. destruct (IH _ _ _ _ Hnone H) as [Hnone' Hrest].
        split; [assumption |]. intros d' [<-|Hin] Hd; [| now apply Hrest].
        exact Hws.
Qed.

Lemma construct_returns_off_cycle (depth : nat) :
  forall k w nodes r nodes',
    In w project -> none_built nodes ->
    construct depth project k w nodes = Some (r, nodes') ->
    on_cycle (ws_name w) = false /\ none_built nodes'.
Proof.
  induction depth as [|depth IH]; intros k w nodes r nodes' Hw Hnone;
    simpl; [discriminate |].
  destruct (resolve (construct depth project) project _ nodes [])
    as [[deps nodes1]|] eqn:Hres; [| discriminate].
  destruct (resolve_keeps_none_built _ IH _ _ _ _ _ Hnone Hres)
    as [Hnone1 Hdecl].
  intros H; inversion H; subst; clear H.
  assert (Hoff : on_cycle (ws_name w) = false).
  { destruct (on_cycle (ws_name w)) eqn:Hon; [| reflexivity].
    destruct (on_cycle_closed w Hw Hon) as [d [w' [Hin [Hd Hfound]]]].
    rewrite (Hdecl d Hin Hd) in Hfound. discriminate. }
  split; [assumption |].
  intros n Hin. apply in_app_or in Hin. destruct Hin as [Hin|[<-|[]]].
  - now apply Hnone1.
  - exact Hoff.
Qed.

(** C5, as the code has it.  The constructor detects no cycle.  When the
    workspace it is called on lies on a dependency cycle of workspaces none
    of which is built yet, no depth of nested constructor calls is enough
    for it to return: each constructor on the cycle calls the next one
    before any of them has added itself to [nodes]. *)
Theorem construct_on_cycle_never_returns
    (depth : nat) (k : Kind) (w : Workspace) (nodes : list Node) :
  In w project -> on_cycle (ws_name w) = true ->
  Graph.none_built on_cycle nodes ->
  construct depth project k w nodes = None.
Proof.
  intros Hw Hon Hnone.
  destruct (construct depth project k w nodes) as [[r nodes']|] eqn:H;
    [| reflexivity].
  destruct (construct_returns_off_cycle _ _ _ _ _ _ Hw Hnone H) as [Hoff _].
  congruence.
Qed.

End Construction.

Section ConstructionExamples.
Import Graph Examples.

Lemma a_and_b_closed :
  forall w, In w a_and_b -> in_a_and_b (ws_name w) = true ->
    exists d w', In d (declared w) /\ in_a_and_b d = true /\
                 workspace_named a_and_b d = Some w'.
Proof.
  intros w [<-|[<-|[]]] _.
  - exists "@project/b", package_b. repeat split. now left.
  - exists "@project/a", package_a. repeat split. now left.
Defined.

Lemma construct_on_cycle_never_returns_witness :
  construct 64 a_and_b Package package_a [] = None.
Proof.
  apply (construct_on_cycle_never_returns a_and_b in_a_and_b a_and_b_closed).
  - now left.
  - reflexivity.
  - intros n [].
Defined.

(** On the acyclic project the constructor of [svc] returns once three
    nested calls fit on the stack, having built [core], [lib] and [svc] in
    that order; [lodash] and [typescript] are no workspaces and are
    skipped. *)
Lemma construct_core_lib_svc :
  construct 2 core_lib_svc Service svc [] = None /\
  option_map (fun r => (map name (dependencies (fst r)), map name (snd r)))
             (construct 3 core_lib_svc Service svc [])
  = Some (["lib"], ["core"; "lib"; "svc"]).
Proof. split; reflexivity. Qed.

(** C5, as the claim has it, fails: on the two-package cycle the
    constructor has not returned after a thousand nested calls, nor does it
    at any other depth; it reports no error either, it keeps recursing. *)
Lemma cycle_is_not_rejected :
  construct 1000 a_and_b Package package_a [] = None /\
  (forall depth, construct depth a_and_b Package package_a [] = None).
Proof.
  split; [vm_compute; reflexivity |].
  intros depth.
  destruct (construct depth a_and_b Package package_a []) as [[r nodes']|] eqn:H;
    [| reflexivity].
  destruct (construct_returns_off_cycle a_and_b in_a_and_b a_and_b_closed
              depth Package package_a [] r nodes') as [Hoff _].
  - now left.
  - intros n [].
  - exact H.
  - discriminate.
Qed.

End ConstructionExamples.

(** ** The checksum store seen from the node *)

Section ChecksumStore.
Import Checksums Compilation Examples.




End ChecksumStore.

(** ** The skip *)

Section TypeChecking.
Import Checksums Compilation Examples.

(** A subscriber with no earlier request waiting finds its own. *)
Lemma find_own_request {A : Type} (o : nat) (a : A)
    (pending : list (nat * A)) :
  find (is_for o) pending = None ->
  find (is_for o) (pending ++ [(o, a)]) = Some (o, a).
Proof.
  induction pending as [|x rest IH]; simpl.
  - intros _. unfold is_for. simpl. now rewrite Nat.eqb_refl.
  - destruct (is_for o x); [discriminate | exact IH].
Qed.

Lemma filter_own_request {A : Type} (o : nat) (a : A)
    (pending : list (nat * A)) :
  find (is_for o) pending = None ->
  List.filter (fun e => negb (is_for o e)) (pending ++ [(o, a)]) = pending.
Proof.
  induction pending as [|x rest IH]; cbn [find List.filter app].
  - intros _. unfold is_for. cbn. now rewrite Nat.eqb_refl.
  - destruct (is_for o x) eqn:Hx; [discriminate |].
    intros H. cbn [negb]. now rewrite (IH H).
Qed.

(** C1, as the claim has it, fails: the node does not go to [SUCCESS]
    directly.  [service_cached] is type-checked once, which leaves it
    [SUCCESS]; a second non-forced request finds the sources unchanged, and
    yet the node is [CHECKING] from the request to the end of the
    comparison, and [typeCheck$] is told so, although nothing was forced
    and no source changed. *)
Lemma skip_passes_through_checking :
  let w0 := run service_cached [PerformTypeChecking 1 false;
                                StartResolved 1 hashing []] in
  let w1 := step w0 (PerformTypeChecking 2 false) in
  let w2 := step w1 (StartResolved 2 hashing []) in
  (read (hashFile w0) = Resolved (Some two_sources) /\
   calculate hashing = Resolved two_sources_swapped /\
   compare (Some two_sources) (Some two_sources_swapped) = Ok false) /\
  typeCheckStatus w0 = SUCCESS /\
  (typeCheckStatus w1 = CHECKING /\
   hd_error (trace w1) = Some (TypeCheck_next CHECKING)) /\
  (typeCheckStatus w2 = SUCCESS /\ spawns w2 = 0 /\
   List.filter is_typeCheck_next (trace w2)
   = [TypeCheck_next SUCCESS; TypeCheck_next CHECKING;
      TypeCheck_next SUCCESS; TypeCheck_next CHECKING]).
Proof. repeat split. Qed.



End TypeChecking.

(** ** What an event may change *)

Section Frames.
Import Checksums Compilation.

(** Takes the handlers apart down to assignments and [emit]s. *)
Create HintDb handlers discriminated.

#[local] Hint Unfold step registerIPCServer performTypeChecking startResolved
  writeSettled transpile dataListener closeListener errorListener
  performTypeChecking_then _startTypeChecking_begin
  _startTypeChecking_resume _startTypeChecking_try _startTypeChecking_catch
  _watchTypeChecking completed spawn _handleTscLogs _startTranspiling
  transpile_reaction setTypeCheckingStatus setTranspilingStatus write log
  emit : handlers.

Ltac handlers := repeat autounfold with handlers in *.

Ltac branches :=
  repeat (cbn -[alter insert lookup Z.eqb] in *;
          match goal with
          | |- context [match ?x with _ => _ end] =>
              lazymatch x with
              | context [match _ with _ => _ end] => fail
              | _ => destruct x eqn:?
              end
          end);
  cbn -[alter insert lookup Z.eqb] in *.

(** A property of the world that the listeners of a process keep is kept
    by the delivery of the event to all of them. *)
Lemma run_listeners_preserves (P : World -> Prop)
    (listener : Watcher -> World -> World * Watcher) :
  (forall l w, P w -> P (fst (listener l w))) ->
  forall ls w, P w -> P (fst (run_listeners listener ls w)).
Proof.
  intros Hl. induction ls as [|l rest IH]; intros w Hw; simpl; [exact Hw |].
  specialize (Hl l w Hw). destruct (listener l w) as [w1 l']. simpl in Hl.
  specialize (IH w1 Hl). destruct (run_listeners listener rest w1). exact IH.
Qed.

Lemma processEvent_preserves (P : World -> Prop)
    (listener : Watcher -> World -> World * Watcher) (pid : nat) :
  (forall l w, P w -> P (fst (listener l w))) ->
  (forall ps w, P w -> P (upd_procs ps w)) ->
  forall w, P w -> P (processEvent listener pid w).
Proof.
  intros Hl Hp w Hw. unfold processEvent.
  destruct (procs w !! pid) as [p|]; [| exact Hw].
  pose proof (run_listeners_preserves P listener Hl (watchers p) w Hw) as H.
  destruct (run_listeners listener (watchers p) w) as [w1 ls].
  apply Hp. exact H.
Qed.

Lemma reactions_preserve (P : World -> Prop) (ok : bool) :
  (forall o w, P w -> P (transpile_reaction ok o w)) ->
  forall os w, P w ->
    P (fold_left (fun w o => transpile_reaction ok o w) os w).
Proof.
  intros Hr. induction os as [|o rest IH]; intros w Hw; simpl; auto.
Qed.

Lemma compileSettled_preserves (P : World -> Prop) (p : nat) (ok : bool) :
  (forall o w, P w -> P (transpile_reaction ok o w)) ->
  (forall ps w, P w -> P (upd_promises ps w)) ->
  forall w, P w -> P (compileSettled p ok w).
Proof.
  intros Hr Hp w Hw. unfold compileSettled.
  destruct (promises w !! p) as [[[ok'|] os]|]; try exact Hw.
  apply reactions_preserve; [exact Hr |]. apply Hp. exact Hw.
Qed.

(** The file at [hashPath] changes only when a [write] settles. *)
Lemma hashFile_frame (w : World) (e : Event) :
  (forall o r, e <> WriteSettled o r) -> hashFile (step w e) = hashFile w.
Proof.
  intros Hne. destruct e; try (handlers; branches; reflexivity).
  - apply (processEvent_preserves (fun w' => hashFile w' = hashFile w));
      [| auto | reflexivity].
    intros l w0 H. handlers. branches; exact H.
  - apply (processEvent_preserves (fun w' => hashFile w' = hashFile w));
      [| auto | reflexivity].
    intros l w0 H. handlers. branches; exact H.
  - exfalso. now apply (Hne o r).
  - apply (compileSettled_preserves (fun w' => hashFile w' = hashFile w));
      [| auto | reflexivity].
    intros o w0 H. handlers. branches; exact H.
Qed.

(** No [write] is called, and none is left waiting, by any event but the
    exit of a process with code 0. *)
Lemma writes_frame (w : World) (e : Event) :
  (forall pid, e <> ProcClose pid 0) ->
  writes (step w e) = writes w /\
  (forall x, In x (writing (step w e)) -> In x (writing w)).
Proof.
  intros Hne.
  set (P := fun w' => writes w' = writes w /\
                      forall x, In x (writing w') -> In x (writing w)).
  assert (HP : P w) by (split; auto).
  destruct e; try (unfold writes; handlers; branches; now split).
  - apply (processEvent_preserves P); [| intros ps w0 H; exact H | exact HP].
    intros l w0 [H1 H2]. unfold P, writes in *. handlers. branches.
    all: try (split; assumption).
    all: exfalso; apply (Hne pid); f_equal; now apply Z.eqb_eq.
  - apply (processEvent_preserves P); [| intros ps w0 H; exact H | exact HP].
    intros l w0 [H1 H2]. unfold P, writes in *. handlers.
    branches; split; assumption.
  - unfold writes. handlers. branches. all: split; try reflexivity.
    all: intros x Hx; try apply filter_In in Hx; tauto.
  - apply (compileSettled_preserves P); [| intros ps w0 H; exact H | exact HP].
    intros o w0 [H1 H2]. unfold P, writes in *. handlers.
    branches; split; assumption.
Qed.

(** Settling a [write] that nobody is waiting for changes nothing. *)
Lemma writeSettled_unknown (w : World) (o : nat) (r : WriteOutcome) :
  find (is_for o) (writing w) = None -> step w (WriteSettled o r) = w.
Proof. intros H. simpl. unfold writeSettled. now rewrite H. Qed.

(** The order of calls around [write] is kept by every event. *)
Lemma written_after_success_step (w : World) (e : Event) :
  written_after_success (trace w) ->
  written_after_success (trace (step w e)).
Proof.
  intros Hw.
  set (P := fun w' => written_after_success (trace w')).
  destruct e; try (handlers; branches; exact Hw).
  - apply (processEvent_preserves P); [| intros ps w0 H; exact H | exact Hw].
    intros l w0 H. unfold P in *. handlers. branches; exact H.
  - apply (processEvent_preserves P); [| intros ps w0 H; exact H | exact Hw].
    intros l w0 H. unfold P in *. handlers. branches; exact H.
  - apply (compileSettled_preserves P); [| intros ps w0 H; exact H | exact Hw].
    intros o w0 H. unfold P in *. handlers. branches; exact H.
Qed.

Lemma written_after_success_run (es : list Event) :
  forall w, written_after_success (trace w) ->
            written_after_success (trace (run w es)).
Proof.
  unfold run. induction es as [|e rest IH]; intros w Hw; simpl; [exact Hw |].
  apply IH. now apply written_after_success_step.
Qed.

Lemma closeListener_zero_status (l : Watcher) (w : World) :
  typeCheckStatus (fst (closeListener 0 l w)) = SUCCESS.
Proof.
  unfold closeListener. change (Z.eqb 0 0) with true. cbv iota.
  handlers. branches; reflexivity.
Qed.

(** When the listeners of a 'close' with code 0 have run, the node is
    [SUCCESS], unless there was no listener. *)
Lemma close_zero_sets_success (ls : list Watcher) (w : World) :
  ls <> [] ->
  typeCheckStatus (fst (run_listeners (closeListener 0) ls w)) = SUCCESS.
Proof.
  revert w. induction ls as [|l rest IH]; intros w Hne; [contradiction |].
  simpl run_listeners.
  destruct (closeListener 0 l w) as [w1 l'] eqn:Hl.
  assert (H1 : typeCheckStatus w1 = SUCCESS).
  { replace w1 with (fst (closeListener 0 l w)) by now rewrite Hl.
    apply closeListener_zero_status. }
  destruct rest as [|l2 rest'].
  - simpl. exact H1.
  - specialize (IH w1 ltac:(discriminate)).
    destruct (run_listeners (closeListener 0) (l2 :: rest') w1). exact IH.
Qed.

Lemma close_zero_status (w : World) (pid : nat) :
  writes (step w (ProcClose pid 0)) <> writes w ->
  typeCheckStatus (step w (ProcClose pid 0)) = SUCCESS.
Proof.
  simpl. unfold processEvent.
  destruct (procs w !! pid) as [p|]; [| intros H; now contradiction H].
  destruct (watchers p) as [|l rest] eqn:Hls.
  - simpl. intros H. now contradiction H.
  - intros _.
    pose proof (close_zero_sets_success (l :: rest) w ltac:(discriminate)) as H.
    destruct (run_listeners (closeListener 0) (l :: rest) w). exact H.
Qed.

(** The IPC server is called by the two events of transpilation only. *)
Lemma notifications_frame (w : World) (e : Event) :
  (forall o, e <> Transpile o) ->
  (forall p ok, e <> CompileSettled p ok) ->
  notifications (step w e) = notifications w.
Proof.
  intros Ht Hc.
  set (P := fun w' => notifications w' = notifications w).
  destruct e; try (unfold notifications; handlers; branches; reflexivity).
  - apply (processEvent_preserves P); [| intros ps w0 H; exact H | reflexivity].
    intros l w0 H. unfold P, notifications in *. handlers. branches; exact H.
  - apply (processEvent_preserves P); [| intros ps w0 H; exact H | reflexivity].
    intros l w0 H. unfold P, notifications in *. handlers. branches; exact H.
  - exfalso. now apply (Ht o).
  - exfalso. now apply (Hc p ok).
Qed.

(** [_checksums] is assigned by two callbacks only: the non-forced
    [_startTypeChecking] once [read()] and [calculate()] have resolved, and
    the [then] callback of a [write]. *)
Lemma checksums_frame (w : World) (e : Event) :
  _checksums (step w e) = _checksums w
  \/ (exists o calc_try calc_catch old current,
        e = StartResolved o calc_try calc_catch /\
        find (is_for o) (starting w) = Some (o, false) /\
        read (hashFile w) = Resolved old /\
        calculate calc_try = Resolved current /\
        _checksums (step w e) = Some current)
  \/ (exists o data,
        e = WriteSettled o Written /\
        find (is_for o) (writing w) = Some (o, data) /\
        _checksums (step w e) = Some data).
Proof.
  assert (Hown : forall (A : Type) (o n : nat) (a : A) (l : list (nat * A)),
             find (is_for o) l = Some (n, a) -> n = o).
  { intros A o n a l H. apply find_some in H. destruct H as [_ H].
    unfold is_for in H. simpl in H. now apply Nat.eqb_eq. }
  set (P := fun w' => _checksums w' = _checksums w).
  destruct e; try (left; handlers; branches; reflexivity).
  - (* StartResolved *)
    handlers. branches. all: try (left; reflexivity).
    all: right; left; exists o, calc_try, calc_catch.
    all: match goal with
         | H : find (is_for _) (starting _) = Some (?n, _) |- _ =>
             pose proof (Hown _ _ _ _ _ H); subst n
         end.
    all: match goal with
         | H : negb ?b = true |- _ => destruct b; [discriminate |]
         end.
    all: eexists; eexists; repeat split; eauto.
  - left.
    apply (processEvent_preserves P); [| intros ps w0 H; exact H | reflexivity].
    intros l w0 H. unfold P in *. handlers. branches; exact H.
  - left.
    apply (processEvent_preserves P); [| intros ps w0 H; exact H | reflexivity].
    intros l w0 H. unfold P in *. handlers. branches; exact H.
  - (* WriteSettled *)
    handlers. branches. all: try (left; reflexivity).
    right; right. exists o, i.
    match goal with
    | H : find (is_for _) (writing _) = Some (?n, _) |- _ =>
        pose proof (Hown _ _ _ _ _ H); subst n
    end.
    repeat split; assumption.
  - left.
    apply (compileSettled_preserves P); [| intros ps w0 H; exact H | reflexivity].
    intros o w0 H. unfold P in *. handlers. branches; exact H.
Qed.

End Frames.

(** ** When the checksums are persisted and when the snapshot changes *)

Section Persistence.
Import Checksums Compilation Examples.

(** C6.  Along every run of a node from its construction, each call of
    [write] comes right after the calls by which the 'close' listener sets
    the node to [SUCCESS] and hands it to the subscriber.  No other event
    calls [write] or leaves one waiting: not the request, not the spawning
    of the process, not its output, not its exit with a non-zero code, not
    its 'error' event.  After the exit with code 0 that called [write] the
    node is [SUCCESS].  The file itself changes only when such a waiting
    [write] settles. *)
Theorem checksums_written_only_after_success :
  (forall n f es, written_after_success (trace (run (fresh n f) es))) /\
  (forall w e,
     (forall pid, e <> ProcClose pid 0) ->
     writes (step w e) = writes w /\
     (forall x, In x (writing (step w e)) -> In x (writing w))) /\
  (forall w pid,
     writes (step w (ProcClose pid 0)) <> writes w ->
     typeCheckStatus (step w (ProcClose pid 0)) = SUCCESS) /\
  (forall w e,
     (forall o r, e <> WriteSettled o r) ->
     hashFile (step w e) = hashFile w) /\
  (forall w o r,
     find (is_for o) (writing w) = None ->
     hashFile (step w (WriteSettled o r)) = hashFile w).
Proof.
  split; [| split; [| split; [| split]]].
  - intros n f es. now apply written_after_success_run.
  - exact writes_frame.
  - exact close_zero_status.
  - exact hashFile_frame.
  - intros w o r H. now rewrite writeSettled_unknown.
Qed.

(** A forced type-check of [service] that exits with code 0. *)
Lemma checksums_written_only_after_success_witness :
  let w := run service [PerformTypeChecking 1 true;
                        StartResolved 1 hashing []] in
  writes w = [] /\
  writes (step w (ProcClose 0 0)) = [WriteChecksums two_sources_swapped] /\
  typeCheckStatus (step w (ProcClose 0 0)) = SUCCESS /\
  hashFile (step w (ProcClose 0 0)) = NoFile /\
  hashFile (run w [ProcClose 0 0; WriteSettled 1 Written])
    = Stored two_sources_swapped.
Proof.
  split; [reflexivity |]. split; [reflexivity |]. split.
  - apply (proj1 (proj2 (proj2 checksums_written_only_after_success))).
    discriminate.
  - split; reflexivity.
Defined.

(** C7, as the claim has it, fails.  A non-forced request on [service]:
    when the compiler has been spawned and nothing is known of its outcome,
    [_checksums] already holds the fresh checksums, and it still does after
    the compiler has exited with code 2 and the node is [ERROR]. *)
Lemma snapshot_assigned_before_outcome :
  let w1 := run service [PerformTypeChecking 1 false;
                         StartResolved 1 hashing []] in
  let w2 := step w1 (ProcClose 0 2) in
  _checksums service = None /\
  (typeCheckStatus w1 = CHECKING /\ spawns w1 = 1 /\ heard 1 w1 = [] /\
   _checksums w1 = Some two_sources_swapped) /\
  (typeCheckStatus w2 = ERROR /\ heard 1 w2 = [OnError] /\
   _checksums w2 = Some two_sources_swapped).
Proof. repeat split. Qed.

(** C7, as the code has it.  [_checksums] is assigned in two places.  A
    non-forced [_startTypeChecking] assigns the fresh checksums as soon as
    [read()] and [calculate()] have resolved, whatever the comparison says
    and before it spawns anything; it assigns nothing when one of them is
    rejected.  The [then] callback of [write] assigns the checksums it has
    persisted, after a type-check that succeeded; a rejected [write]
    assigns nothing.  Nothing else touches the field: a forced
    [_startTypeChecking] leaves it as it was, and so do the exit of the
    process, whatever its code, and its 'error' event. *)
Theorem snapshot_assignments :
  (forall w e,
     _checksums (step w e) = _checksums w
     \/ (exists o calc_try calc_catch old current,
           e = StartResolved o calc_try calc_catch /\
           find (is_for o) (starting w) = Some (o, false) /\
           read (hashFile w) = Resolved old /\
           calculate calc_try = Resolved current /\
           _checksums (step w e) = Some current)
     \/ (exists o data,
           e = WriteSettled o Written /\
           find (is_for o) (writing w) = Some (o, data) /\
           _checksums (step w e) = Some data)) /\
  (forall w o calc_try calc_catch,
     find (is_for o) (starting w) = Some (o, true) ->
     _checksums (step w (StartResolved o calc_try calc_catch))
       = _checksums w) /\
  (forall w pid code,
     _checksums (step w (ProcClose pid code)) = _checksums w) /\
  (forall w pid err,
     _checksums (step w (ProcError pid err)) = _checksums w) /\
  (forall w o calc_try calc_catch old current,
     find (is_for o) (starting w) = Some (o, false) ->
     read (hashFile w) = Resolved old ->
     calculate calc_try = Resolved current ->
     _checksums (step w (StartResolved o calc_try calc_catch))
       = Some current) /\
  (forall w o calc_try calc_catch,
     find (is_for o) (starting w) = Some (o, false) ->
     (exists e, read (hashFile w) = Rejected e)
     \/ (exists e, calculate calc_try = Rejected e) ->
     _checksums (step w (StartResolved o calc_try calc_catch))
       = _checksums w) /\
  (forall w o data,
     find (is_for o) (writing w) = Some (o, data) ->
     _checksums (step w (WriteSettled o Written)) = Some data) /\
  (forall w o left_behind,
     _checksums (step w (WriteSettled o (WriteFailed left_behind)))
       = _checksums w).
Proof.
  split; [exact checksums_frame |]. split; [| split].
  - intros w o calc_try calc_catch Hforced.
    destruct (checksums_frame w (StartResolved o calc_try calc_catch))
      as [H|[[o' [ct [cc [old [cur [He [Hf _]]]]]]]|[o' [d [He _]]]]].
    + exact H.
    + inversion He; subst. congruence.
    + discriminate.
  - intros w pid code.
    destruct (checksums_frame w (ProcClose pid code))
      as [H|[[o' [ct [cc [old [cur [He _]]]]]]|[o' [d [He _]]]]];
      [exact H | discriminate | discriminate].
  - split; [| split; [| split; [| split]]].
    + intros w pid err.
      destruct (checksums_frame w (ProcError pid err))
        as [H|[[o' [ct [cc [old [cur [He _]]]]]]|[o' [d [He _]]]]];
        [exact H | discriminate | discriminate].
    + intros w o calc_try calc_catch old current Hfind Hread Hcalc.
      cbn [step]. unfold startResolved. rewrite Hfind.
      unfold _startTypeChecking_resume, _startTypeChecking_try.
      cbn -[compare calculate read alter]. rewrite Hread, Hcalc.
      assert (Hb : exists b, compare old (Some current) = Ok b).
      { destruct old as [old|]; simpl; [| now exists true].
        destruct (negb _); eauto. }
      destruct Hb as [[|] ->]; reflexivity.
    + intros w o calc_try calc_catch Hfind Hrejected.
      cbn [step]. unfold startResolved. rewrite Hfind.
      unfold _startTypeChecking_resume, _startTypeChecking_try.
      cbn -[compare calculate read alter].
      destruct Hrejected as [[e He]|[e He]].
      * rewrite He. reflexivity.
      * rewrite He. destruct (read (hashFile w)); reflexivity.
    + intros w o data Hfind. cbn [step]. unfold writeSettled.
      rewrite Hfind. reflexivity.
    + intros w o left_behind.
      destruct (checksums_frame w (WriteSettled o (WriteFailed left_behind)))
        as [H|[[o' [ct [cc [old [cur [He _]]]]]]|[o' [d [He _]]]]];
        [exact H | discriminate | discriminate].
Qed.

(** On [service_cached]: a forced request leaves the snapshot alone, a
    non-forced one assigns the checksums it has calculated when its reads
    have resolved, and the [then] callback of [write] assigns what was
    written. *)
Lemma snapshot_assignments_witness :
  let forced := step service_cached (PerformTypeChecking 1 true) in
  let requested := step service_cached (PerformTypeChecking 1 false) in
  let closed := run service [PerformTypeChecking 1 true;
                             StartResolved 1 hashing []; ProcClose 0 0] in
  _checksums (step forced (StartResolved 1 hashing [])) = _checksums forced /\
  _checksums (step requested (StartResolved 1 hashing []))
  = Some two_sources_swapped /\
  _checksums (step closed (WriteSettled 1 Written))
  = Some two_sources_swapped.
Proof.
  destruct snapshot_assignments
    as (_ & Hforced & _ & _ & Hfresh & _ & Hwritten & _).
  split; [| split].
  - apply Hforced. reflexivity.
  - apply (Hfresh _ 1 hashing [] (Some two_sources)); reflexivity.
  - apply Hwritten. vm_compute. reflexivity.
Defined.

End Persistence.

(** ** Requests that meet a node which is already checking *)

Section SingleFlight.
Import Checksums Compilation Examples.

Lemma closeListener_keeps_trace (code : Z) (e : Effect) (l : Watcher)
    (w : World) :
  In e (trace w) -> In e (trace (fst (closeListener code l w))).
Proof.
  intros H. unfold closeListener, completed.
  destruct (Z.eqb code 0), (stopped l); try destruct (role l) as [[c|]|];
    simpl; tauto.
Qed.

Lemma closeListener_tells (code : Z) (l : Watcher) (w : World) :
  stopped l = false ->
  In (Observer (observer l) (outcome code))
     (trace (fst (closeListener code l w))).
Proof.
  intros Hl. unfold closeListener, completed, outcome. rewrite Hl.
  destruct (Z.eqb code 0); try destruct (role l) as [[c|]|]; simpl; tauto.
Qed.

(** Every watcher of a process that is still subscribed is told the same
    outcome when the process exits. *)
Lemma watchers_share_outcome (code : Z) (ls : list Watcher) (w : World)
    (l : Watcher) :
  In l ls -> stopped l = false ->
  In (Observer (observer l) (outcome code))
     (trace (fst (run_listeners (closeListener code) ls w))).
Proof.
  revert w. induction ls as [|l0 rest IH]; intros w Hin Hl; [destruct Hin |].
  simpl run_listeners.
  destruct (closeListener code l0 w) as [w1 l0'] eqn:H0.
  destruct Hin as [->|Hin].
  - assert (H1 : In (Observer (observer l) (outcome code)) (trace w1)).
    { replace w1 with (fst (closeListener code l w)) by now rewrite H0.
      now apply closeListener_tells. }
    pose proof (run_listeners_preserves
                  (fun w' => In (Observer (observer l) (outcome code)) (trace w'))
                  (closeListener code)
                  (closeListener_keeps_trace code _) rest w1 H1) as H.
    destruct (run_listeners (closeListener code) rest w1). exact H.
  - specialize (IH w1 Hin Hl).
    destruct (run_listeners (closeListener code) rest w1). exact IH.
Qed.

(** A request that finds the node [CHECKING] never spawns. *)
Lemma request_while_checking_spawns_nothing (w : World) (o : nat)
    (force : bool) :
  typeCheckStatus w = CHECKING ->
  spawns (step w (PerformTypeChecking o force)) = spawns w /\
  typeCheckStatus (step w (PerformTypeChecking o force)) = CHECKING.
Proof.
  intros H. simpl. unfold performTypeChecking, _watchTypeChecking. rewrite H.
  destruct (typeCheckProcess w); split; try reflexivity; assumption.
Qed.

(** A request that finds the node [CHECKING] with its process spawned is
    put on that process, and is told how the process ends. *)
Lemma request_joins_running_process (w : World) (o pid : nat) (force : bool)
    (p : ChildProcess) (code : Z) :
  typeCheckStatus w = CHECKING ->
  typeCheckProcess w = Some pid ->
  procs w !! pid = Some p ->
  let w1 := step w (PerformTypeChecking o force) in
  spawns w1 = spawns w /\
  In (Observer o (outcome code)) (trace (step w1 (ProcClose pid code))).
Proof.
  intros Hs Hp Hpid. simpl.
  unfold performTypeChecking, _watchTypeChecking. rewrite Hs, Hp.
  split; [reflexivity |].
  unfold processEvent. cbn [procs upd_procs].
  rewrite list_lookup_alter_eq, Hpid. cbn [fmap option_fmap option_map].
  set (l := {| observer := o; role := Follower; stopped := false |}).
  pose proof (watchers_share_outcome code (watchers (add_watcher l p))
                (upd_procs (alter (add_watcher l) pid (procs w)) w) l) as H.
  destruct (run_listeners (closeListener code) (watchers (add_watcher l p)) _)
    as [w2 ls2].
  cbn [trace upd_procs]. apply H; [| reflexivity].
  unfold add_watcher. cbn [watchers]. apply in_or_app. right. now left.
Qed.

(** C2, where the code departs from it.  [_startTypeChecking] sets the
    node to [CHECKING] before its first [await] and assigns
    [typeCheckProcess] only after the last one.  A second request made in
    between finds the node [CHECKING] and subscribes to
    [_watchTypeChecking()] while there is no process of this run to listen
    to.  On a node that was never checked the field is [undefined]: the
    second subscriber is told of an error at once, while the first is told
    of the success of the run.  On a node that was checked before the field
    still holds the process of the earlier run: the second subscriber's
    listeners go on that process, which has exited, and it is told
    nothing. *)
Theorem request_before_spawn_misses_the_run :
  (forall w o force,
     typeCheckStatus w = CHECKING -> typeCheckProcess w = None ->
     step w (PerformTypeChecking o force) = emit (Observer o OnError) w) /\
  (let w1 := step service (PerformTypeChecking 1 true) in
   let w2 := step w1 (PerformTypeChecking 2 true) in
   let w3 := run w2 [StartResolved 1 hashing []; ProcClose 0 0;
                     WriteSettled 1 Written] in
   (typeCheckStatus w1 = CHECKING /\ typeCheckProcess w1 = None) /\
   heard 2 w2 = [OnError] /\
   spawns w3 = 1 /\
   typeCheckStatus w3 = SUCCESS /\
   heard 1 w3 = [OnNext; OnComplete] /\
   heard 2 w3 = [OnError]) /\
  (let w0 := run service [PerformTypeChecking 1 true;
                          StartResolved 1 hashing []; ProcClose 0 0;
                          WriteSettled 1 Written] in
   let w1 := step w0 (PerformTypeChecking 3 true) in
   let w2 := step w1 (PerformTypeChecking 4 true) in
   let w3 := run w2 [StartResolved 3 hashing []; ProcClose 1 0;
                     WriteSettled 3 Written] in
   (typeCheckStatus w1 = CHECKING /\ typeCheckProcess w1 = Some 0) /\
   spawns w3 = 2 /\
   typeCheckStatus w3 = SUCCESS /\
   heard 3 w3 = [OnNext; OnComplete] /\
   heard 4 w3 = []).
Proof.
  split.
  - intros w o force Hs Hp. simpl.
    unfold performTypeChecking, _watchTypeChecking. now rewrite Hs, Hp.
  - repeat split; reflexivity.
Qed.

End SingleFlight.

(** ** The logs of an invocation and the IPC notifier *)

Section LogsAndNotifier.
Import Checksums Compilation Examples.

(** C8, where the code departs from it.  Neither the request nor
    [_startTypeChecking] empties [_typeCheckLogs]; only the skip replaces
    them.  [service] is type-checked twice with [force]: the first run
    prints an error and exits with code 2, the second prints nothing and
    exits with code 0.  After the second run the logs still hold the error
    of the first. *)
Theorem logs_survive_the_next_invocation :
  (forall w o force,
     _typeCheckLogs (step w (PerformTypeChecking o force))
       = _typeCheckLogs w) /\
  (forall w o calc_try calc_catch,
     find (is_for o) (starting w) = Some (o, true) ->
     _typeCheckLogs (step w (StartResolved o calc_try calc_catch))
       = _typeCheckLogs w) /\
  (let w1 := run service
               [PerformTypeChecking 1 true; StartResolved 1 hashing [];
                ProcData 0 Stdout "src/index.ts(3,7): error TS2322";
                ProcClose 0 2] in
   let w2 := run w1
               [PerformTypeChecking 2 true; StartResolved 2 hashing [];
                ProcClose 1 0; WriteSettled 2 Written] in
   typeCheckStatus w1 = ERROR /\
   _typeCheckLogs w1 = [Line "src/index.ts(3,7): error TS2322"] /\
   typeCheckStatus w2 = SUCCESS /\
   heard 2 w2 = [OnNext; OnComplete] /\
   _typeCheckLogs w2 = [Line "src/index.ts(3,7): error TS2322"]).
Proof.
  split; [| split].
  - intros w o force. simpl.
    unfold performTypeChecking, _watchTypeChecking.
    destruct (typeCheckStatus w); try reflexivity.
    destruct (typeCheckProcess w); reflexivity.
  - intros w o calc_try calc_catch H. simpl. unfold startResolved.
    rewrite H. unfold _startTypeChecking_resume. simpl.
    destruct (calculate calc_try); reflexivity.
  - repeat split; reflexivity.
Qed.

(** C9, where the code departs from it.  [setTranspilingStatus] calls
    [_ipc.graphUpdated()] when an IPC server is registered;
    [setTypeCheckingStatus] never does, and no event of type checking
    reaches the notifier in another way.  With a server registered, a
    type-check of [service] goes through [CHECKING] to [SUCCESS] without a
    single call of the notifier, while a transpilation makes one call for
    each of its two transitions. *)
Theorem type_check_transitions_do_not_notify :
  (forall w status,
     notifications (setTypeCheckingStatus status w) = notifications w) /\
  (forall w status,
     notifications (setTranspilingStatus status w)
       = if _ipc w then S (notifications w) else notifications w) /\
  (forall w e,
     (forall o, e <> Transpile o) ->
     (forall p ok, e <> CompileSettled p ok) ->
     notifications (step w e) = notifications w) /\
  (let w := run service [RegisterIPC; PerformTypeChecking 1 true;
                         StartResolved 1 hashing []; ProcClose 0 0] in
   _ipc w = true /\
   rev (List.filter is_typeCheck_next (trace w))
     = [TypeCheck_next CHECKING; TypeCheck_next SUCCESS] /\
   notifications w = 0) /\
  (let w := run service [RegisterIPC; Transpile 1; CompileSettled 0 true] in
   transpilingStatus w = TRANSPILED /\ notifications w = 2).
Proof.
  split; [| split; [| split; [| split]]].
  - intros w status. reflexivity.
  - intros w status. unfold setTranspilingStatus, notifications. simpl.
    destruct (_ipc w); reflexivity.
  - exact notifications_frame.
  - repeat split; reflexivity.
  - repeat split; reflexivity.
Qed.

End LogsAndNotifier.

(** ** The queries on the dependencies of a node *)

Section GraphQueries.
Import Graph.

(** Induction on a node with the property at hand for its dependencies. *)
Lemma Node_induction (P : Node -> Prop) :
  (forall n, (forall d, depends_on n d -> P d) -> P n) ->
  forall n, P n.
Proof.
  intros H. fix IH 1. intros n. apply H. unfold depends_on.
  destruct n as [k nm v pr loc ns ts tc deps]. simpl.
  induction deps as [|d rest IHl]; intros x Hx; [destruct Hx |].
  destruct Hx as [<-|Hx]; [apply IH | now apply IHl].
Qed.

(** What one call pushes does not depend on what [deps] holds already. *)
Lemma _getDependencies_app (this : Node) :
  forall deps,
    _getDependencies this deps
    = deps ++ flat_map (fun d => d :: getDependencies d) (dependencies this).
Proof.
  induction this as [this IH] using Node_induction. intros deps.
  destruct this as [k nm v pr loc ns ts tc ds]. unfold depends_on in IH.
  cbn [dependencies] in *. cbn [_getDependencies]. revert deps.
  induction ds as [|d rest IHl]; intros deps.
  - cbn. now rewrite app_nil_r.
  - cbn [flat_map].
    rewrite IHl by (intros x Hx; apply IH; now right).
    assert (Hd : getDependencies d
                 = flat_map (fun c => c :: getDependencies c) (dependencies d)).
    { unfold getDependencies at 1. now rewrite (IH d (or_introl eq_refl)). }
    rewrite (IH d (or_introl eq_refl)), Hd.
    rewrite <- !app_assoc. reflexivity.
Qed.

Lemma getDependencies_unfold (this : Node) :
  getDependencies this
  = flat_map (fun d => d :: getDependencies d) (dependencies this).
Proof. unfold getDependencies at 1. now rewrite _getDependencies_app. Qed.

Lemma getDependencies_sound (this d : Node) :
  In d (getDependencies this) -> clos_trans_1n Node depends_on this d.
Proof.
  revert d. induction this as [this IH] using Node_induction. intros d.
  rewrite getDependencies_unfold, in_flat_map.
  intros [c [Hc [<-|Hd]]].
  - now apply Relation_Operators.t1n_step.
  - eapply Relation_Operators.t1n_trans; [exact Hc | now apply IH].
Qed.

Lemma getDependencies_complete (this d : Node) :
  clos_trans_1n Node depends_on this d -> In d (getDependencies this).
Proof.
  induction 1 as [n d Hstep|n c d Hstep _ IH];
    rewrite getDependencies_unfold, in_flat_map.
  - exists d. split; [exact Hstep | now left].
  - exists c. split; [exact Hstep | now right].
Qed.

(** [getDependencies()] is, for each direct dependency in the order of
    [dependencies], that dependency followed by its own
    [getDependencies()], with no node left out on account of having been
    listed before.  So it lists a node exactly when a chain of
    [dependencies] leads from [this] to it. *)
Theorem getDependencies_is_transitive_closure (this d : Node) :
  getDependencies this
  = flat_map (fun c => c :: getDependencies c) (dependencies this) /\
  (In d (getDependencies this) <-> clos_trans_1n Node depends_on this d).
Proof.
  split; [apply getDependencies_unfold |].
  split; [apply getDependencies_sound | apply getDependencies_complete].
Qed.

(** A node that [getDependencies()] lists is a direct dependency of [this]
    or of another node of the list. *)
Lemma getDependencies_last_step (this d : Node) :
  In d (getDependencies this) ->
  exists p, (p = this \/ In p (getDependencies this)) /\ depends_on p d.
Proof.
  intros H. apply getDependencies_sound in H.
  apply clos_trans_t1n_iff, clos_trans_tn1_iff in H.
  induction H as [d Hstep|c d Hstep Hc _].
  - exists this. split; [now left | exact Hstep].
  - exists c. split; [| exact Hstep]. right.
    now apply getDependencies_complete, clos_trans_t1n_iff,
      clos_trans_tn1_iff.
Qed.

Lemma closed_getDependencies (nodes : list Node) (n d : Node) :
  closed nodes -> In n nodes -> In d (getDependencies n) -> In d nodes.
Proof.
  intros Hclosed Hn Hd. apply getDependencies_sound in Hd.
  induction Hd as [n d Hstep|n c d Hstep _ IH].
  - now apply (Hclosed n).
  - apply IH. now apply (Hclosed n).
Qed.

Lemma parent_holds_dependency (this p : Node) :
  existsb (fun d => String.eqb (name d) (name this)) (dependencies p) = true ->
  Checksums.includes (map name (getDependencies p)) (name this) = true.
Proof.
  intros Hparent.
  apply existsb_exists in Hparent. destruct Hparent as [d [Hd Hname]].
  apply String.eqb_eq in Hname.
  apply includes_In. rewrite <- Hname. apply in_map.
  rewrite getDependencies_unfold, in_flat_map.
  exists d. split; [exact Hd | now left].
Qed.

Lemma parent_is_dependent (nodes : list Node) (this n : Node) :
  In n (getParents nodes this) -> In n (getDependent nodes this).
Proof.
  intros Hn. unfold getParents, getDependent in *.
  apply filter_In in Hn. destruct Hn as [Hin Hparent].
  apply filter_In. split; [exact Hin |].
  now apply parent_holds_dependency.
Qed.

(** The direct parents of a node are among its dependents, in the same
    order: looking for the parents among the dependents finds all of
    them. *)
Theorem getParents_are_dependents (nodes : list Node) (this : Node) :
  getParents (getDependent nodes this) this = getParents nodes this.
Proof.
  unfold getParents, getDependent.
  induction nodes as [|p rest IH]; [reflexivity |].
  cbn [List.filter].
  destruct (existsb _ (dependencies p)) eqn:Hp.
  - rewrite (parent_holds_dependency this p Hp). cbn [List.filter].
    rewrite Hp. now f_equal.
  - destruct (Checksums.includes _ _); [| exact IH].
    cbn [List.filter]. rewrite Hp. exact IH.
Qed.

(** In a graph that holds the dependencies of each of its nodes, a node is
    a root (no node depends on it, directly or not) exactly when it has no
    direct parent. *)
Theorem isRoot_iff_no_parents (nodes : list Node) (this : Node) :
  closed nodes ->
  (isRoot nodes this = true <-> getParents nodes this = []).
Proof.
  intros Hclosed. unfold isRoot. rewrite Nat.eqb_eq, length_zero_iff_nil.
  split; intros Hnone.
  - destruct (getParents nodes this) as [|p rest] eqn:Hparents;
      [reflexivity |].
    assert (Hp : In p (getDependent nodes this)).
    { apply parent_is_dependent. rewrite Hparents. now left. }
    rewrite Hnone in Hp. destruct Hp.
  - destruct (getDependent nodes this) as [|a rest] eqn:Hdep; [reflexivity |].
    exfalso.
    assert (Ha : In a (getDependent nodes this)) by (rewrite Hdep; now left).
    unfold getDependent in Ha. apply filter_In in Ha.
    destruct Ha as [Hin Hinc]. apply includes_In, in_map_iff in Hinc.
    destruct Hinc as [d [Hname Hd]].
    destruct (getDependencies_last_step a d Hd) as [p [Hp Hstep]].
    assert (Hpin : In p nodes).
    { destruct Hp as [->|Hp]; [exact Hin |].
      now apply (closed_getDependencies nodes a). }
    assert (Hparent : In p (getParents nodes this)).
    { unfold getParents. apply filter_In. split; [exact Hpin |].
      apply existsb_exists. exists d. split; [exact Hstep |].
      now apply String.eqb_eq. }
    rewrite Hnone in Hparent. destruct Hparent.
Qed.

End GraphQueries.

(** ** What the constructor builds *)

Section ConstructionInvariants.
Import Graph.

Variable project : Project.

(** A node whose name is that of a workspace of the project. *)
Local Abbreviation named n := (workspace_named project (name n) <> None).

Lemma workspace_named_Some (d : string) (w : Workspace) :
  workspace_named project d = Some w -> In w project /\ ws_name w = d.
Proof.
  unfold workspace_named. intros H. apply find_some in H.
  destruct H as [Hin Hname]. apply String.eqb_eq in Hname. now split.
Qed.

(** Nodes built from workspaces do not change which names are kept. *)
Lemma kept_more (nodes new : list Node) (d : string) :
  (forall n, In n new -> named n) ->
  kept project (nodes ++ new) d = kept project nodes d.
Proof.
  intros Hnew. unfold kept. rewrite existsb_app.
  destruct (existsb (fun n => String.eqb (name n) d) nodes); [reflexivity |].
  simpl. destruct (existsb _ new) eqn:Hex; [| reflexivity].
  apply existsb_exists in Hex. destruct Hex as [n [Hin Hname]].
  apply String.eqb_eq in Hname. specialize (Hnew n Hin). rewrite Hname in Hnew.
  simpl. now destruct (workspace_named project d).
Qed.

Lemma resolve_built
    (build : Kind -> Workspace -> list Node -> option (Node * list Node)) :
  (forall k w nodes r nodes',
     build k w nodes = Some (r, nodes') -> built project w nodes r nodes') ->
  forall descriptors nodes acc deps nodes',
    resolve build project descriptors nodes acc = Some (deps, nodes') ->
    map name deps
      = map name acc ++ List.filter (kept project nodes) descriptors /\
    exists new,
      nodes' = nodes ++ new /\
      (forall n, In n new -> named n /\ just_built n) /\
      (closed nodes -> incl acc nodes -> closed nodes' /\ incl deps nodes').
Proof.
  intros Hbuild. induction descriptors as [|d rest IH];
    intros nodes acc deps nodes'; simpl.
  - intros H; inversion H; subst. split; [now rewrite app_nil_r |].
    exists []. rewrite app_nil_r. split; [reflexivity |].
    split; [intros n [] | tauto].
  - destruct (find (fun n => String.eqb (name n) d) nodes) as [n0|] eqn:Hfound.
    + intros H. destruct (IH _ _ _ _ H) as [Hnames [new [-> [Hnew Hcl]]]].
      apply find_some in Hfound. destruct Hfound as [Hin0 Hname0].
      assert (Hkept : kept project nodes d = true).
      { unfold kept. apply orb_true_iff. left. apply existsb_exists.
        now exists n0. }
      rewrite Hkept. apply String.eqb_eq in Hname0. split.
      * rewrite Hnames, map_app. simpl. rewrite Hname0.
        now rewrite <- app_assoc.
      * exists new. repeat split; try apply Hnew; try assumption.
        all: intros Hc Hacc; apply Hcl; try assumption.
        all: intros x Hx; apply in_app_or in Hx;
          destruct Hx as [Hx|[<-|[]]]; auto.
    + assert (Hnot : existsb (fun n => String.eqb (name n) d) nodes = false).
      { destruct (existsb _ nodes) eqn:Hex; [| reflexivity].
        apply existsb_exists in Hex. destruct Hex as [n [Hin Hname]].
        now rewrite (find_none _ _ Hfound n Hin) in Hname. }
      destruct (workspace_named project d) as [w|] eqn:Hws.
      * destruct (build _ w nodes) as [[child nodes1]|] eqn:Hchild;
          [| discriminate].
        destruct (Hbuild _ _ _ _ _ Hchild)
          as [Hcname [Hcfresh [_ [new1 [-> [Hnew1 Hcl1]]]]]].
        destruct (workspace_named_Some d w Hws) as [_ Hwname].
        assert (Hnamed1 : forall n, In n (new1 ++ [child]) ->
                                    named n /\ just_built n).
        { intros n Hn. apply in_app_or in Hn. destruct Hn as [Hn|[<-|[]]].
          - now apply Hnew1.
          - split; [| exact Hcfresh]. rewrite Hcname, Hwname, Hws.
            discriminate. }
        intros H. destruct (IH _ _ _ _ H) as [Hnames [new [-> [Hnew Hcl]]]].
        rewrite (filter_ext _ (kept project nodes)) in Hnames
          by (intros a; apply kept_more; intros n Hn; now apply Hnamed1).
        assert (Hkept : kept project nodes d = true).
        { unfold kept. rewrite Hws. apply orb_true_r. }
        rewrite Hkept. split.
        -- rewrite Hnames, map_app. simpl. rewrite Hcname, Hwname.
           now rewrite <- app_assoc.
        -- exists ((new1 ++ [child]) ++ new). rewrite !app_assoc.
           split; [reflexivity |]. split.
           ++ intros n Hn. apply in_app_or in Hn.
              destruct Hn as [Hn|Hn]; [now apply Hnamed1 | now apply Hnew].
           ++ intros Hc Hacc. rewrite <- !app_assoc.
              rewrite <- !app_assoc in Hcl. apply Hcl.
              ** now apply Hcl1.
              ** intros x Hx. apply in_app_or in Hx.
                 destruct Hx as [Hx|[<-|[]]].
                 --- apply in_or_app. left. now apply Hacc.
                 --- apply in_or_app. right. apply in_or_app. right.
                     now left.
      * intros H. destruct (IH _ _ _ _ H) as [Hnames [new [-> [Hnew Hcl]]]].
        assert (Hkept : kept project nodes d = false).
        { unfold kept. now rewrite Hnot, Hws. }
        rewrite Hkept. split; [exact Hnames |].
        exists new. repeat split; try apply Hnew; try assumption.
        all: intros Hc Hacc; now apply Hcl.
Qed.

Lemma construct_built (depth : nat) :
  forall k w nodes r nodes',
    construct depth project k w nodes = Some (r, nodes') ->
    built project w nodes r nodes'.
Proof.
  induction depth as [|depth IH]; intros k w nodes r nodes'; simpl;
    [discriminate |].
  destruct (resolve (construct depth project) project (declared w) nodes [])
    as [[deps nodes1]|] eqn:Hres; [| discriminate].
  destruct (resolve_built _ IH _ _ _ _ _ Hres)
    as [Hnames [new [-> [Hnew Hcl]]]].
  intros H; inversion H; subst; clear H. unfold built, just_built. simpl.
  repeat split; try assumption.
  exists new. rewrite app_assoc. repeat split; try apply Hnew; try assumption.
  intros Hc. destruct (Hcl Hc ltac:(intros x [])) as [Hc1 Hdeps].
  intros n d Hn Hd. apply in_app_or in Hn. destruct Hn as [Hn|[<-|[]]].
  - apply in_or_app. left. now apply (Hc1 n).
  - apply in_or_app. left. now apply Hdeps.
Qed.

(** The constructor only adds to the set of nodes, the node it returns
    last; it returns that node, and every node it built for it on the way,
    [DISABLED], [NOT_TRANSPILED] and [NOT_CHECKED]; and a set that held the
    dependencies of each of its nodes still does. *)
Theorem construct_extends_the_graph
    (depth : nat) (k : Kind) (w : Workspace) (nodes : list Node)
    (r : Node) (nodes' : list Node) :
  construct depth project k w nodes = Some (r, nodes') ->
  name r = ws_name w /\
  exists new,
    nodes' = nodes ++ new ++ [r] /\
    (forall n, In n (new ++ [r]) -> just_built n) /\
    (closed nodes -> closed nodes').
Proof.
  intros H. destruct (construct_built _ _ _ _ _ _ H)
    as [Hname [Hfresh [_ [new [-> [Hnew Hcl]]]]]].
  split; [exact Hname |]. exists new.
  split; [reflexivity |]. split; [| exact Hcl].
  intros n Hn. apply in_app_or in Hn. destruct Hn as [Hn|[<-|[]]].
  - now apply Hnew.
  - exact Hfresh.
Qed.

(** The dependencies of the node the constructor returns bear, in the
    order of the manifest ([dependencies], then [devDependencies]), the
    declared names that are those of a node built before or of a workspace
    of the project; every other declared name is skipped as external. *)
Theorem construct_keeps_workspace_dependencies
    (depth : nat) (k : Kind) (w : Workspace) (nodes : list Node)
    (r : Node) (nodes' : list Node) :
  construct depth project k w nodes = Some (r, nodes') ->
  map name (dependencies r) = List.filter (kept project nodes) (declared w).
Proof.
  intros H. now destruct (construct_built _ _ _ _ _ _ H) as [_ [_ [Hd _]]].
Qed.

(** A ranking of the workspaces that goes down along every declared
    dependency on a workspace of the project: there is no cycle. *)
Variable rank : string -> nat.

Hypothesis rank_decreases :
  forall w d w', In w project -> In d (declared w) ->
    workspace_named project d = Some w' ->
    rank (ws_name w') < rank (ws_name w).

Lemma resolve_returns
    (build : Kind -> Workspace -> list Node -> option (Node * list Node))
    (bound : nat) :
  (forall k w nodes, In w project -> rank (ws_name w) < bound ->
     exists r, build k w nodes = Some r) ->
  forall descriptors nodes acc,
    (forall d w, In d descriptors -> workspace_named project d = Some w ->
                 rank (ws_name w) < bound) ->
    exists r, resolve build project descriptors nodes acc = Some r.
Proof.
  intros Hbuild. induction descriptors as [|d rest IH];
    intros nodes acc Hrank; simpl; [eauto |].
  destruct (find (fun n => String.eqb (name n) d) nodes).
  - apply IH. intros d' w' Hd'. apply Hrank. now right.
  - destruct (workspace_named project d) as [w|] eqn:Hws.
    + destruct (workspace_named_Some d w Hws) as [Hin _].
      destruct (Hbuild (if isService w then Service else Package) w nodes Hin)
        as [[child nodes1] Hchild].
      { apply (Hrank d w); [now left | exact Hws]. }
      rewrite Hchild. apply IH. intros d' w' Hd'. apply Hrank. now right.
    + apply IH. intros d' w' Hd'. apply Hrank. now right.
Qed.

(** On a project without dependency cycles the constructor returns: for a
    workspace of rank [n], [n + 1] nested calls are enough. *)
Theorem construct_returns_without_cycle
    (depth : nat) (k : Kind) (w : Workspace) (nodes : list Node) :
  In w project -> rank (ws_name w) < depth ->
  exists r nodes', construct depth project k w nodes = Some (r, nodes').
Proof.
  revert k w nodes. induction depth as [|depth IH]; intros k w nodes Hw Hrank;
    [lia |].
  simpl.
  destruct (resolve_returns (construct depth project) (rank (ws_name w)))
    with (descriptors := declared w) (nodes := nodes) (acc := @nil Node)
    as [[deps nodes1] Hres].
  - intros k' w' nodes0 Hw' Hr'.
    destruct (IH k' w' nodes0 Hw' ltac:(lia)) as [r [n' H]]. eauto.
  - intros d w' Hd Hws. now apply (rank_decreases w d w').
  - rewrite Hres. eauto.
Qed.

End ConstructionInvariants.

Section ConstructionWitnesses.
Import Graph Examples.

Lemma construct_svc :
  construct 3 core_lib_svc Service svc [] = Some (svc_node, core_lib_svc_nodes).
Proof. reflexivity. Defined.

Lemma construct_extends_the_graph_witness :
  name svc_node = ws_name svc /\
  exists new,
    core_lib_svc_nodes = [] ++ new ++ [svc_node] /\
    (forall n, In n (new ++ [svc_node]) -> just_built n) /\
    (closed [] -> closed core_lib_svc_nodes).
Proof.
  exact (construct_extends_the_graph core_lib_svc 3 Service svc []
           svc_node core_lib_svc_nodes construct_svc).
Defined.

Lemma construct_keeps_workspace_dependencies_witness :
  map name (dependencies svc_node)
  = List.filter (kept core_lib_svc []) (declared svc).
Proof.
  exact (construct_keeps_workspace_dependencies core_lib_svc 3 Service svc []
           svc_node core_lib_svc_nodes construct_svc).
Defined.

Lemma level_decreases :
  forall w d w', In w core_lib_svc -> In d (declared w) ->
    workspace_named core_lib_svc d = Some w' ->
    level (ws_name w') < level (ws_name w).
Proof.
  intros w d w' [<-|[<-|[<-|[]]]] Hd Hw'; simpl in Hd.
  all: repeat match goal with
         | H : _ \/ _ |- _ => destruct H as [<-|H]
         | H : False |- _ => destruct H
         end.
  all: vm_compute in Hw'; try discriminate.
  all: inversion Hw'; subst; vm_compute; lia.
Defined.

Lemma construct_returns_without_cycle_witness :
  exists r nodes', construct 3 core_lib_svc Service svc [] = Some (r, nodes').
Proof.
  apply (construct_returns_without_cycle core_lib_svc level level_decreases).
  - right. right. now left.
  - vm_compute. lia.
Defined.

Lemma core_lib_svc_nodes_closed : closed core_lib_svc_nodes.
Proof.
  intros n d [<-|[<-|[<-|[]]]] Hd; unfold depends_on in Hd; simpl in Hd.
  - destruct Hd.
  - destruct Hd as [<-|[]]. now left.
  - destruct Hd as [<-|[]]. right. now left.
Defined.

Lemma isRoot_iff_no_parents_witness :
  isRoot core_lib_svc_nodes svc_node = true
  <-> getParents core_lib_svc_nodes svc_node = [].
Proof.
  exact (isRoot_iff_no_parents core_lib_svc_nodes svc_node
           core_lib_svc_nodes_closed).
Defined.

End ConstructionWitnesses.

(** ** More on the checksum store *)

Section ChecksumStoreFacts.
Import Checksums Examples.

Lemma split_nonempty (s : string) : split s <> [].
Proof.
  destruct s as [|c rest]; simpl; [discriminate |].
  destruct (Ascii.eqb c "/"); [discriminate |].
  destruct (split rest); discriminate.
Qed.

Lemma split_slash (a b : string) :
  split (a +:+ "/" +:+ b) = split a ++ split b.
Proof.
  induction a as [|c a IH]; simpl; [reflexivity |].
  destruct (Ascii.eqb c "/"); simpl.
  - now rewrite <- IH.
  - change (String.append a (String "/" b)) with (a +:+ "/" +:+ b).
    rewrite IH. pose proof (split_nonempty a) as Ha.
    destruct (split a) as [|seg segs]; [contradiction | reflexivity].
Qed.

Lemma split_no_slash (s : string) : has_slash s = false -> split s = [s].
Proof.
  induction s as [|c rest IH]; simpl; [reflexivity |].
  destruct (Ascii.eqb c "/"); simpl; [discriminate |].
  intros H. now rewrite (IH H).
Qed.

Lemma last_app_nonempty {A : Type} (l1 l2 : list A) (d : A) :
  l2 <> [] -> List.last (l1 ++ l2) d = List.last l2 d.
Proof.
  intros H. induction l1 as [|x l1 IH]; [reflexivity |].
  simpl. destruct (l1 ++ l2) eqn:E; [| exact IH].
  apply app_eq_nil in E. destruct E as [_ E]. contradiction.
Qed.

(** The cache file of a node is named by what follows the last slash of
    the node's name: whatever stands before it, a scope for instance, plays
    no part, so two nodes whose names differ in the scope only share one
    cache file. *)
Theorem hashFileName_ignores_scope (scope scope' n : string) :
  hashFileName (scope +:+ "/" +:+ n) = hashFileName n /\
  hashFileName (scope +:+ "/" +:+ n) = hashFileName (scope' +:+ "/" +:+ n) /\
  (has_slash n = false -> hashFileName (scope +:+ "/" +:+ n) = n).
Proof.
  assert (H : forall a, hashFileName (a +:+ "/" +:+ n) = hashFileName n).
  { intros a. unfold hashFileName. rewrite split_slash.
    apply last_app_nonempty, split_nonempty. }
  split; [apply H |]. split; [now rewrite !H |].
  intros Hn. rewrite H. unfold hashFileName. now rewrite split_no_slash.
Qed.

Lemma get_set (o : IChecksums) (key h key' : string) :
  get (set o key h) key' = if String.eqb key key' then Some h else get o key'.
Proof.
  induction o as [|[k v] rest IH]; simpl.
  - reflexivity.
  - destruct (String.eqb_spec k key) as [->|Hne]; simpl.
    + now destruct (String.eqb key key').
    + rewrite IH. destruct (String.eqb_spec k key') as [->|Hne'];
        [| reflexivity].
      destruct (String.eqb_spec key key'); [congruence | reflexivity].
Qed.

Lemma calculate_from_spec (jobs : list HashJob) :
  forall acc,
    match calculate_from acc jobs with
    | Rejected e => e = IOError /\ exists src, In (src, None) jobs
    | Resolved hashes =>
        (forall src, ~ In (src, None) jobs) /\
        forall src,
          get hashes src
          = fold_left (fun found job => if String.eqb (fst job) src
                                        then snd job else found)
                      jobs (get acc src)
    end.
Proof.
  induction jobs as [|[src [digest|]] rest IH]; intros acc; simpl.
  - split; [intros src [] | reflexivity].
  - specialize (IH (set acc src digest)).
    destruct (calculate_from (set acc src digest) rest) as [hashes|e].
    + destruct IH as [Hall Hget]. split.
      * intros s [H|H]; [discriminate | now apply (Hall s)].
      * intros s. rewrite Hget, get_set. reflexivity.
    + destruct IH as [-> [s Hs]]. split; [reflexivity |].
      exists s. now right.
  - split; [reflexivity |]. exists src. now left.
Qed.

(** [calculate()] is all or nothing.  It rejects exactly when hashing one
    of the files is rejected.  Otherwise the object it resolves to has
    unique keys and maps each source to the digest of the last job that
    hashed it, and no other key to anything. *)
Theorem calculate_all_or_nothing (jobs : list HashJob) :
  (calculate jobs = Rejected IOError <-> exists src, In (src, None) jobs) /\
  (forall hashes,
     calculate jobs = Resolved hashes ->
     wf hashes /\ forall src, get hashes src = last_digest jobs src).
Proof.
  pose proof (calculate_from_spec jobs []) as H. fold (calculate jobs) in H.
  split.
  - destruct (calculate jobs) as [hashes|e].
    + destruct H as [Hall _]. split; [discriminate |].
      intros [src Hsrc]. destruct (Hall src Hsrc).
    + destruct H as [-> Hex]. split; [now intros _ | reflexivity].
  - intros hashes Hcalc. split; [now apply (calculate_wf jobs) |].
    rewrite Hcalc in H. destruct H as [_ Hget]. exact Hget.
Qed.

Lemma wf_NoDup (o : IChecksums) : wf o -> List.NoDup o.
Proof. unfold wf, keys. apply NoDup_map_inv. Qed.

Lemma unchanged_permutation (old current : IChecksums) :
  wf old -> wf current ->
  compare (Some old) (Some current) = Ok false -> Permutation old current.
Proof.
  intros Hold Hcur.
  simpl.
  destruct (Nat.eqb_spec (length (keys old)) (length (keys current)))
    as [Hlen|Hlen]; simpl; [| discriminate].
  intros H. assert (Hloop : compare_loop old current (keys old) (keys current)
                            = false) by congruence.
  pose proof (proj1 (compare_loop_false _ _ _) Hloop) as Hall.
  pose proof (same_keys old current Hcur Hlen
                (fun k Hk => proj1 (Hall k Hk))) as Hback.
  apply Permutation.NoDup_Permutation; try now apply wf_NoDup.
  intros [k v]. rewrite <- (get_In_entry old k v Hold).
  rewrite <- (get_In_entry current k v Hcur). split; intros Hget.
  - assert (Hk : In k (keys current)).
    { apply Hback, get_In_keys. now exists v. }
    destruct (Hall k Hk) as [_ Heq]. congruence.
  - assert (Hk : In k (keys current)) by (apply get_In_keys; now exists v).
    destruct (Hall k Hk) as [_ Heq]. congruence.
Qed.

(** On objects with unique keys, [compare] answers [false] (unchanged)
    exactly when both hold the same entries, in whatever order. *)
Theorem compare_unchanged_iff_same_entries (old current : IChecksums) :
  wf old -> wf current ->
  (compare (Some old) (Some current) = Ok false <-> Permutation old current).
Proof.
  intros Hold Hcur. split.
  - now apply unchanged_permutation.
  - now apply compare_permuted.
Qed.

Lemma two_sources_wf : wf two_sources.
Proof.
  unfold wf, two_sources; simpl.
  constructor; [simpl; intros [H|[]]; discriminate |].
  constructor; [simpl; intros [] |]. constructor.
Defined.

Lemma compare_unchanged_iff_same_entries_witness :
  compare (Some two_sources) (Some two_sources_swapped) = Ok false
  <-> Permutation two_sources two_sources_swapped.
Proof.
  exact (compare_unchanged_iff_same_entries two_sources two_sources_swapped
           two_sources_wf two_sources_swapped_wf).
Defined.

End ChecksumStoreFacts.

(** ** Whole type-checks *)

Section WholeTypeChecks.
Import Checksums Compilation Examples.

Create HintDb callbacks discriminated.

#[local] Hint Unfold step registerIPCServer performTypeChecking startResolved
  writeSettled transpile dataListener closeListener errorListener
  performTypeChecking_then _startTypeChecking_begin
  _startTypeChecking_resume _startTypeChecking_try _startTypeChecking_catch
  _watchTypeChecking completed spawn _handleTscLogs _startTranspiling
  transpile_reaction setTypeCheckingStatus setTranspilingStatus write log
  emit : callbacks.

Ltac handlers := repeat autounfold with callbacks in *.

Ltac branches :=
  repeat (cbn -[alter insert lookup Z.eqb] in *;
          match goal with
          | |- context [match ?x with _ => _ end] =>
              lazymatch x with
              | context [match _ with _ => _ end] => fail
              | _ => destruct x eqn:?
              end
          end);
  cbn -[alter insert lookup Z.eqb] in *.

(** The two ways in which the continuation of [_startTypeChecking] and the
    [then] callback of [performTypeChecking] can go. *)
Lemma continuation_cases
    (w : World) (o : nat) (force : bool) (calc_try calc_catch : list HashJob) :
  find (is_for o) (starting w) = Some (o, force) ->
  let w' := step w (StartResolved o calc_try calc_catch) in
  (force = false /\ sources_unchanged w calc_try /\
   spawns w' = spawns w /\ procs w' = procs w /\
   typeCheckStatus w' = SUCCESS /\
   heard o w' = heard o w ++ [OnNext; OnComplete])
  \/
  (~ (force = false /\ sources_unchanged w calc_try) /\
   spawns w' = S (spawns w) /\
   typeCheckProcess w' = Some (length (procs w)) /\
   typeCheckStatus w' = typeCheckStatus w /\
   heard o w' = heard o w).
Proof.
  intros Hfind. unfold sources_unchanged, spawns, heard. handlers.
  rewrite Hfind. destruct force.
  - right. branches.
    all: repeat split; try reflexivity.
    all: intros [H _]; discriminate.
  - cbn -[alter insert lookup compare calculate read].
    destruct (read (hashFile w)) as [old|e] eqn:Hread.
    2:{ right. branches.
        all: repeat split; try reflexivity.
        all: intros [_ [x [c [H _]]]]; discriminate. }
    destruct (calculate calc_try) as [cur|e] eqn:Hcalc.
    2:{ right. branches.
        all: repeat split; try reflexivity.
        all: intros [_ [x [c [_ [H _]]]]]; discriminate. }
    assert (Hb : exists b, compare old (Some cur) = Ok b).
    { destruct old as [old|]; simpl; [| now exists true].
      destruct (negb _); eauto. }
    destruct Hb as [b Hcmp]. rewrite Hcmp. destruct b.
    + right. cbn -[alter insert lookup compare calculate read].
      repeat split; try reflexivity.
      intros [_ [x [c [Hx [Hc Hxc]]]]]. congruence.
    + left. cbn -[alter insert lookup compare calculate read]. rewrite Nat.eqb_refl.
      destruct old as [old|]; [| discriminate].
      repeat split; try reflexivity.
      * exists old, cur. now repeat split.
      * simpl. now rewrite <- app_assoc.
Qed.


(** When the continuation of [_startTypeChecking] runs, it either finds
    the sources unchanged on a non-forced request, and then spawns nothing
    and sets the node to [SUCCESS]; or, in every other case (a forced
    request, no stored checksums, a rejected read or calculation, changed
    sources), it spawns exactly one process, which becomes
    [typeCheckProcess], and leaves the node [CHECKING] for the subscriber
    to wait. *)
Theorem request_spawns_unless_unchanged
    (w : World) (o : nat) (force : bool) (calc_try calc_catch : list HashJob) :
  find (is_for o) (starting w) = Some (o, force) ->
  let w' := step w (StartResolved o calc_try calc_catch) in
  (force = false /\ sources_unchanged w calc_try /\
   spawns w' = spawns w /\ procs w' = procs w /\
   typeCheckStatus w' = SUCCESS /\
   heard o w' = heard o w ++ [OnNext; OnComplete])
  \/
  (~ (force = false /\ sources_unchanged w calc_try) /\
   spawns w' = S (spawns w) /\
   typeCheckProcess w' = Some (length (procs w)) /\
   typeCheckStatus w' = typeCheckStatus w /\
   heard o w' = heard o w).
Proof. exact (continuation_cases w o force calc_try calc_catch). Qed.

Lemma request_spawns_unless_unchanged_witness :
  let w := step service_cached (PerformTypeChecking 1 false) in
  let w' := step w (StartResolved 1 hashing []) in
  (false = false /\ sources_unchanged w hashing /\
   spawns w' = spawns w /\ procs w' = procs w /\
   typeCheckStatus w' = SUCCESS /\
   heard 1 w' = heard 1 w ++ [OnNext; OnComplete])
  \/
  (~ (false = false /\ sources_unchanged w hashing) /\
   spawns w' = S (spawns w) /\
   typeCheckProcess w' = Some (length (procs w)) /\
   typeCheckStatus w' = typeCheckStatus w /\
   heard 1 w' = heard 1 w).
Proof.
  apply (request_spawns_unless_unchanged
           (step service_cached (PerformTypeChecking 1 false)) 1 false
           hashing []).
  reflexivity.
Defined.

Lemma lookup_end {A : Type} (l : list A) (x : A) :
  (l ++ [x]) !! length l = Some x.
Proof. now apply list_lookup_middle. Qed.

Lemma alter_end {A : Type} (f : A -> A) (l : list A) (x : A) :
  alter f (length l) (l ++ [x]) = l ++ [f x].
Proof.
  replace (length l) with (length l + 0) by lia. now rewrite alter_app_r.
Qed.

Lemma insert_end {A : Type} (l : list A) (x y : A) :
  <[length l := y]> (l ++ [x]) = l ++ [y].
Proof.
  replace (length l) with (length l + 0) by lia. now rewrite insert_app_r.
Qed.

Lemma request_begins (w : World) (o : nat) (force : bool) :
  typeCheckStatus w <> CHECKING ->
  performTypeChecking o force w = _startTypeChecking_begin o force w.
Proof.
  intros H. unfold performTypeChecking.
  destruct (typeCheckStatus w); try reflexivity. contradiction.
Qed.

(** What each callback of a type-check does to the fields of the node. *)

Lemma request_on_idle (w : World) (o : nat) (force : bool) :
  typeCheckStatus w <> CHECKING ->
  let w' := step w (PerformTypeChecking o force) in
  typeCheckStatus w' = CHECKING /\
  starting w' = starting w ++ [(o, force)] /\
  trace w' = TypeCheck_next CHECKING :: trace w /\
  typeCheckProcess w' = typeCheckProcess w /\ procs w' = procs w /\
  hashFile w' = hashFile w /\ writing w' = writing w /\
  _checksums w' = _checksums w.
Proof.
  intros H. cbn [step]. rewrite request_begins by exact H.
  repeat split.
Qed.

Lemma forced_continuation (w : World) (o : nat)
    (calc_try calc_catch : list HashJob) (current : IChecksums) :
  find (is_for o) (starting w) = Some (o, true) ->
  calculate calc_try = Resolved current ->
  let w' := step w (StartResolved o calc_try calc_catch) in
  procs w' = procs w ++ [{| watchers := [{| observer := o;
                                             role := Starter (Some current);
                                             stopped := false |}] |}] /\
  typeCheckProcess w' = Some (length (procs w)) /\
  trace w' = Spawn (length (procs w)) :: trace w /\
  typeCheckStatus w' = typeCheckStatus w /\
  starting w' = List.filter (fun e => negb (is_for o e)) (starting w) /\
  hashFile w' = hashFile w /\ writing w' = writing w /\
  _checksums w' = _checksums w.
Proof.
  intros Hfind Hcalc. handlers. rewrite Hfind.
  cbn -[alter insert lookup compare calculate read]. rewrite Hcalc.
  cbn -[alter insert lookup compare calculate read]. rewrite alter_end.
  repeat split.
Qed.

Lemma unhashable_continuation (w : World) (o : nat) (force : bool)
    (calc_try calc_catch : list HashJob) (e e' : Thrown) :
  find (is_for o) (starting w) = Some (o, force) ->
  calculate calc_try = Rejected e ->
  calculate calc_catch = Rejected e' ->
  let w' := step w (StartResolved o calc_try calc_catch) in
  procs w' = procs w ++ [{| watchers := [{| observer := o;
                                             role := Starter None;
                                             stopped := false |}] |}] /\
  typeCheckProcess w' = Some (length (procs w)) /\
  spawns w' = S (spawns w) /\ (forall x, heard x w' = heard x w) /\
  writes w' = writes w /\
  typeCheckStatus w' = typeCheckStatus w /\
  starting w' = List.filter (fun e => negb (is_for o e)) (starting w) /\
  hashFile w' = hashFile w /\ writing w' = writing w /\
  _checksums w' = _checksums w.
Proof.
  intros Hfind Htry Hcatch. unfold spawns, heard, writes. handlers.
  rewrite Hfind. destruct force.
  - cbn -[alter insert lookup compare calculate read]. rewrite Htry.
    cbn -[alter insert lookup compare calculate read]. rewrite alter_end.
    repeat split.
  - cbn -[alter insert lookup compare calculate read].
    rewrite Htry, Hcatch.
    destruct (read (hashFile w)).
    all: cbn -[alter insert lookup compare calculate read].
    all: rewrite alter_end; repeat split.
Qed.

Lemma unchanged_continuation (w : World) (o : nat)
    (calc_try calc_catch : list HashJob) (old : option IChecksums)
    (current : IChecksums) :
  find (is_for o) (starting w) = Some (o, false) ->
  read (hashFile w) = Resolved old ->
  calculate calc_try = Resolved current ->
  compare old (Some current) = Ok false ->
  let w' := step w (StartResolved o calc_try calc_catch) in
  typeCheckStatus w' = SUCCESS /\
  (exists skipped starts,
     trace w' = Observer o OnComplete :: Observer o OnNext
                :: TypeCheck_next SUCCESS
                :: Logger "node" INFO skipped :: Logger "node" INFO starts
                :: trace w) /\
  procs w' = procs w /\ typeCheckProcess w' = typeCheckProcess w /\
  starting w' = List.filter (fun e => negb (is_for o e)) (starting w) /\
  hashFile w' = hashFile w /\ writing w' = writing w /\
  _checksums w' = Some current.
Proof.
  intros Hfind Hread Hcalc Hcmp. handlers. rewrite Hfind.
  cbn -[alter insert lookup compare calculate read].
  rewrite Hread, Hcalc, Hcmp.
  cbn -[alter insert lookup compare calculate read].
  repeat split. do 2 eexists. reflexivity.
Qed.

Lemma close_zero_of_starter (w : World) (pid o : nat)
    (checksums : option IChecksums) :
  procs w !! pid = Some {| watchers := [{| observer := o;
                                            role := Starter checksums;
                                            stopped := false |}] |} ->
  let w' := step w (ProcClose pid 0) in
  typeCheckStatus w' = SUCCESS /\
  trace w' = match checksums with
             | Some data => WriteChecksums data
             | None => Observer o OnComplete
             end
             :: Observer o OnNext
             :: Logger "node" INFO ["Package safe-compiled " +:+ name w]
             :: TypeCheck_next SUCCESS :: trace w /\
  writing w' = writing w ++ match checksums with
                            | Some data => [(o, data)]
                            | None => []
                            end /\
  length (procs w') = length (procs w) /\
  typeCheckProcess w' = typeCheckProcess w /\
  starting w' = starting w /\ hashFile w' = hashFile w /\
  _checksums w' = _checksums w.
Proof.
  intros Hproc. cbn [step]. unfold processEvent. rewrite Hproc.
  cbn [watchers run_listeners]. unfold closeListener.
  change (Z.eqb 0 0) with true. cbn [stopped observer role]. handlers.
  destruct checksums; cbn -[alter insert lookup];
    rewrite ?length_insert, ?app_nil_r; repeat split.
Qed.

Lemma write_settles (w : World) (o : nat) (data : IChecksums)
    (r : WriteOutcome) :
  find (is_for o) (writing w) = Some (o, data) ->
  let w' := step w (WriteSettled o r) in
  hashFile w' = fst (write data r (hashFile w)) /\
  _checksums w' = match r with
                   | Written => Some data
                   | WriteFailed _ => _checksums w
                   end /\
  (exists message,
     trace w' = Observer o OnComplete
                :: Logger "node" match r with
                                 | Written => INFO
                                 | WriteFailed _ => WARN
                                 end message
                :: trace w) /\
  writing w' = List.filter (fun e => negb (is_for o e)) (writing w) /\
  typeCheckStatus w' = typeCheckStatus w /\
  typeCheckProcess w' = typeCheckProcess w /\ procs w' = procs w /\
  starting w' = starting w.
Proof.
  intros Hfind. cbn [step]. unfold writeSettled. rewrite Hfind.
  destruct r; cbn; repeat split; eexists; reflexivity.
Qed.

Lemma close_nonzero_of_starter (w : World) (pid o : nat)
    (checksums : option IChecksums) (code : Z) :
  code <> 0%Z ->
  procs w !! pid = Some {| watchers := [{| observer := o;
                                            role := Starter checksums;
                                            stopped := false |}] |} ->
  let w' := step w (ProcClose pid code) in
  typeCheckStatus w' = ERROR /\
  trace w' = Observer o OnError
             :: Logger "node" INFO ["Error safe-compiling " +:+ name w]
             :: TypeCheck_next ERROR :: trace w /\
  writing w' = writing w /\
  length (procs w') = length (procs w) /\
  typeCheckProcess w' = typeCheckProcess w /\
  starting w' = starting w /\ hashFile w' = hashFile w /\
  _checksums w' = _checksums w.
Proof.
  intros Hcode Hproc. cbn [step]. unfold processEvent. rewrite Hproc.
  cbn [watchers run_listeners]. unfold closeListener.
  apply Z.eqb_neq in Hcode. rewrite Hcode.
  cbn [stopped observer role]. handlers.
  cbn -[alter insert lookup]. rewrite length_insert. repeat split.
Qed.

(** Names [w'] the node after the next event of the run. *)
Ltac after w' :=
  match goal with
  | |- context [step ?w0 ?e] =>
      is_var w0; set (w' := step w0 e) in *; clearbody w'
  end.

(** Reads [spawns], [writes] and [heard] off the known traces. *)
Ltac observe :=
  unfold spawns, writes, heard;
  repeat match goal with
         | H : exists _, _ |- _ => destruct H
         end;
  repeat match goal with
         | H : trace _ = _ |- _ => rewrite H
         end;
  cbn [List.filter omap is_spawn is_write rev app length option_bind mbind
       list_omap];
  rewrite ?Nat.eqb_refl.

(** A forced type-check whose compiler exits with code 0, up to the
    settling of the checksum write. *)
Lemma forced_check_then_write (w : World) (o : nat) (entries : IChecksums)
    (calc_catch : list HashJob) (r : WriteOutcome) :
  typeCheckStatus w <> CHECKING ->
  find (is_for o) (starting w) = None ->
  find (is_for o) (writing w) = None ->
  wf entries ->
  let w' := run w [PerformTypeChecking o true;
                   StartResolved o (map hashed entries) calc_catch;
                   ProcClose (length (procs w)) 0;
                   WriteSettled o r] in
  typeCheckStatus w' = SUCCESS /\
  hashFile w' = fst (write entries r (hashFile w)) /\
  _checksums w' = match r with
                   | Written => Some entries
                   | WriteFailed _ => _checksums w
                   end /\
  (exists message safe,
     trace w' = Observer o OnComplete
                :: Logger "node" match r with
                                 | Written => INFO
                                 | WriteFailed _ => WARN
                                 end message
                :: WriteChecksums entries :: Observer o OnNext
                :: Logger "node" INFO safe :: TypeCheck_next SUCCESS
                :: Spawn (length (procs w)) :: TypeCheck_next CHECKING
                :: trace w) /\
  starting w' = starting w /\ writing w' = writing w /\
  length (procs w') = S (length (procs w)).
Proof.
  intros Hstatus Ho Hw Hwf. unfold run; cbn [fold_left].
  destruct (request_on_idle w o true Hstatus)
    as (Sa & Ra & Ta & Pa & Qa & Fa & Wa & Ca).
  after wa.
  destruct (forced_continuation wa o (map hashed entries) calc_catch entries)
    as (Qb & Pb & Tb & Sb & Rb & Fb & Wb & Cb).
  { rewrite Ra. now apply find_own_request. }
  { now apply calculate_distinct. }
  after wb.
  destruct (close_zero_of_starter wb (length (procs w)) o (Some entries))
    as (Sc & Tc & Wc & Qc & Pc & Rc & Fc & Cc).
  { rewrite Qb, Qa. apply lookup_end. }
  after wc.
  destruct (write_settles wc o entries r)
    as (Fd & Cd & [message Td] & Wd & Sd & Pd & Qd & Rd).
  { rewrite Wc, Wb, Wa. now apply find_own_request. }
  after wd.
  rewrite Sd, Sc, Fd, Fc, Fb, Fa, Cd, Cc, Cb, Ca.
  rewrite Td, Tc, Tb, Ta, Rd, Rc, Rb, Ra, Wd, Wc, Wb, Wa, Qd, Qc, Qb, Qa.
  rewrite !filter_own_request by assumption. rewrite length_app, Nat.add_comm.
  repeat split. now exists message, ["Package safe-compiled " +:+ name wb].
Qed.

(** A type-check that succeeded makes the next one a skip.  After a forced
    type-check whose compiler exited with code 0 and whose checksums were
    written, the cache file holds the checksums of the sources; a later
    non-forced request that hashes the same sources, its jobs completing in
    any order, spawns nothing and is told of the success at once. *)
Theorem successful_check_makes_next_request_skip
    (w : World) (o1 o2 : nat) (entries entries' : IChecksums)
    (calc_catch calc_catch' : list HashJob) :
  typeCheckStatus w <> CHECKING ->
  find (is_for o1) (starting w) = None ->
  find (is_for o1) (writing w) = None ->
  find (is_for o2) (starting w) = None ->
  wf entries -> Permutation entries entries' ->
  let w1 := run w [PerformTypeChecking o1 true;
                   StartResolved o1 (map hashed entries) calc_catch;
                   ProcClose (length (procs w)) 0;
                   WriteSettled o1 Written] in
  let w2 := run w1 [PerformTypeChecking o2 false;
                    StartResolved o2 (map hashed entries') calc_catch'] in
  (spawns w1 = S (spawns w) /\ typeCheckStatus w1 = SUCCESS /\
   hashFile w1 = Stored entries) /\
  (spawns w2 = spawns w1 /\ typeCheckStatus w2 = SUCCESS /\
   hashFile w2 = Stored entries /\
   heard o2 w2 = heard o2 w1 ++ [OnNext; OnComplete]).
Proof.
  intros Hstatus Ho1 Hw1 Ho2 Hwf Hperm.
  assert (Hwf' : wf entries').
  { unfold wf, keys in *. eapply Permutation_NoDup; [| exact Hwf].
    now apply Permutation_map. }
  destruct (forced_check_then_write w o1 entries calc_catch Written
              Hstatus Ho1 Hw1 Hwf) as (S1 & F1 & _ & T1 & R1 & _ & _).
  cbv zeta.
  set (w1 := run w [PerformTypeChecking o1 true; _; _; _]) in *.
  clearbody w1. unfold run; cbn [fold_left].
  destruct (request_on_idle w1 o2 false)
    as (Sa & Ra & Ta & Pa & Qa & Fa & Wa & Ca).
  { rewrite S1. discriminate. }
  after wa.
  destruct (unchanged_continuation wa o2 (map hashed entries') calc_catch'
              (Some entries) entries')
    as (Sb & Tb & Qb & Pb & Rb & Fb & Wb & Cb).
  { rewrite Ra, R1. now apply find_own_request. }
  { rewrite Fa, F1. reflexivity. }
  { now apply calculate_distinct. }
  { now apply compare_permuted. }
  after wb.
  rewrite Fb, Fa, F1, Sb, S1. cbn [write fst].
  observe. repeat split.
  destruct (Nat.eqb o1 o2); cbn; now rewrite <- ?app_assoc.
Qed.

Lemma successful_check_makes_next_request_skip_witness :
  let w1 := run service [PerformTypeChecking 1 true;
                         StartResolved 1 (map hashed two_sources) [];
                         ProcClose (length (procs service)) 0;
                         WriteSettled 1 Written] in
  let w2 := run w1 [PerformTypeChecking 2 false;
                    StartResolved 2 (map hashed two_sources_swapped) []] in
  (spawns w1 = S (spawns service) /\ typeCheckStatus w1 = SUCCESS /\
   hashFile w1 = Stored two_sources) /\
  (spawns w2 = spawns w1 /\ typeCheckStatus w2 = SUCCESS /\
   hashFile w2 = Stored two_sources /\
   heard 2 w2 = heard 2 w1 ++ [OnNext; OnComplete]).
Proof.
  apply (successful_check_makes_next_request_skip
           service 1 2 two_sources two_sources_swapped [] []).
  - discriminate.
  - reflexivity.
  - reflexivity.
  - reflexivity.
  - exact two_sources_wf.
  - apply perm_swap.
Defined.

(** Changed sources are checked again.  After the same successful
    type-check, a non-forced request that finds other entries than the
    stored ones (a file added, removed or with another digest) spawns the
    compiler again and leaves its subscriber waiting. *)
Theorem changed_sources_are_checked_again
    (w : World) (o1 o2 : nat) (entries entries' : IChecksums)
    (calc_catch calc_catch' : list HashJob) :
  typeCheckStatus w <> CHECKING ->
  find (is_for o1) (starting w) = None ->
  find (is_for o1) (writing w) = None ->
  find (is_for o2) (starting w) = None ->
  wf entries -> wf entries' -> ~ Permutation entries entries' ->
  let w1 := run w [PerformTypeChecking o1 true;
                   StartResolved o1 (map hashed entries) calc_catch;
                   ProcClose (length (procs w)) 0;
                   WriteSettled o1 Written] in
  let w2 := run w1 [PerformTypeChecking o2 false;
                    StartResolved o2 (map hashed entries') calc_catch'] in
  spawns w2 = S (spawns w1) /\
  typeCheckStatus w2 = CHECKING /\
  typeCheckProcess w2 = Some (S (length (procs w))) /\
  heard o2 w2 = heard o2 w1.
Proof.
  intros Hstatus Ho1 Hw1 Ho2 Hwf Hwf' Hperm.
  destruct (forced_check_then_write w o1 entries calc_catch Written
              Hstatus Ho1 Hw1 Hwf) as (S1 & F1 & _ & _ & R1 & _ & Q1).
  cbv zeta.
  set (w1 := run w [PerformTypeChecking o1 true; _; _; _]) in *.
  clearbody w1. unfold run; cbn [fold_left].
  destruct (request_on_idle w1 o2 false)
    as (Sa & Ra & Ta & Pa & Qa & Fa & Wa & Ca).
  { rewrite S1. discriminate. }
  after wa.
  destruct (continuation_cases wa o2 false (map hashed entries') calc_catch')
    as [(_ & (old & current & Hold & Hcur & Hcmp) & _)
       | (_ & Nb & Pb & Sb & Hb)].
  { rewrite Ra, R1. now apply find_own_request. }
  - exfalso. apply Hperm.
    rewrite Fa, F1 in Hold. cbn [write fst read] in Hold.
    rewrite (calculate_distinct entries' Hwf') in Hcur.
    injection Hold as <-. injection Hcur as <-.
    now apply unchanged_permutation.
  - after wb. rewrite Nb, Pb, Sb, Hb, Qa, Q1, Sa.
    unfold spawns, heard. rewrite Ta. repeat split.
Qed.

Lemma changed_sources_are_checked_again_witness :
  let w1 := run service [PerformTypeChecking 1 true;
                         StartResolved 1 (map hashed two_sources) [];
                         ProcClose (length (procs service)) 0;
                         WriteSettled 1 Written] in
  let w2 := run w1 [PerformTypeChecking 2 false;
                    StartResolved 2 (map hashed [("src/index.ts", "77e0")])
                      []] in
  spawns w2 = S (spawns w1) /\
  typeCheckStatus w2 = CHECKING /\
  typeCheckProcess w2 = Some (S (length (procs service))) /\
  heard 2 w2 = heard 2 w1.
Proof.
  apply (changed_sources_are_checked_again
           service 1 2 two_sources [("src/index.ts", "77e0")] [] []).
  - discriminate.
  - reflexivity.
  - reflexivity.
  - reflexivity.
  - exact two_sources_wf.
  - repeat constructor. intros [].
  - intros H. apply Permutation_length in H. discriminate.
Defined.

(** When the files cannot be hashed, the node is type-checked all the
    same, forced or not, and nothing is cached: after the compiler has
    exited with code 0 the subscriber is told of the success and of the
    completion at once, [write] is not called and the cache file is as it
    was. *)
Theorem unhashable_sources_are_checked_and_not_cached
    (w : World) (o : nat) (force : bool) (calc_try calc_catch : list HashJob)
    (e e' : Thrown) :
  typeCheckStatus w <> CHECKING ->
  find (is_for o) (starting w) = None ->
  calculate calc_try = Rejected e ->
  calculate calc_catch = Rejected e' ->
  let w' := run w [PerformTypeChecking o force;
                   StartResolved o calc_try calc_catch;
                   ProcClose (length (procs w)) 0] in
  spawns w' = S (spawns w) /\
  typeCheckStatus w' = SUCCESS /\
  heard o w' = heard o w ++ [OnNext; OnComplete] /\
  writes w' = writes w /\ writing w' = writing w /\
  hashFile w' = hashFile w.
Proof.
  intros Hstatus Ho Htry Hcatch. unfold run; cbn [fold_left].
  destruct (request_on_idle w o force Hstatus)
    as (Sa & Ra & Ta & Pa & Qa & Fa & Wa & Ca).
  after wa.
  destruct (unhashable_continuation wa o force calc_try calc_catch e e')
    as (Qb & Pb & Nb & Hb & Mb & Sb & Rb & Fb & Wb & Cb);
    [rewrite Ra; now apply find_own_request | assumption | assumption |].
  after wb.
  destruct (close_zero_of_starter wb (length (procs w)) o None)
    as (Sc & Tc & Wc & Qc & Pc & Rc & Fc & Cc).
  { rewrite Qb, Qa. apply lookup_end. }
  after wc.
  rewrite Sc, Wc, Wb, Wa, Fc, Fb, Fa, app_nil_r.
  specialize (Hb o). unfold spawns, writes, heard in *.
  rewrite Tc.
  cbn [List.filter omap is_spawn is_write rev app length option_bind mbind
       list_omap].
  rewrite Nat.eqb_refl, Nb, Mb. cbn [rev app]. rewrite Hb, Ta.
  cbn [List.filter omap is_spawn is_write rev app length option_bind mbind
       list_omap].
  rewrite <- !app_assoc. repeat split.
Qed.

Lemma unhashable_sources_are_checked_and_not_cached_witness :
  let w' := run service_cached
              [PerformTypeChecking 1 false;
               StartResolved 1 [("src/index.ts", None)]
                 [("src/index.ts", None)];
               ProcClose (length (procs service_cached)) 0] in
  spawns w' = S (spawns service_cached) /\
  typeCheckStatus w' = SUCCESS /\
  heard 1 w' = heard 1 service_cached ++ [OnNext; OnComplete] /\
  writes w' = writes service_cached /\
  writing w' = writing service_cached /\
  hashFile w' = hashFile service_cached.
Proof.
  apply (unhashable_sources_are_checked_and_not_cached
           service_cached 1 false [("src/index.ts", None)]
           [("src/index.ts", None)] IOError IOError).
  - discriminate.
  - reflexivity.
  - reflexivity.
  - reflexivity.
Defined.

(** A checksum write that fails costs a warning, not the type-check:
    whatever the failed write left at the hash path, the subscriber is
    still told of the success and of the completion, and the snapshot
    [_checksums] is left as it was.  If the failed write left no stored
    object behind, the next non-forced request spawns the compiler again
    although the sources are the same. *)
Theorem failed_write_is_only_a_warning
    (w : World) (o1 o2 : nat) (entries : IChecksums) (left : HashFile)
    (calc_catch calc_catch' : list HashJob) :
  typeCheckStatus w <> CHECKING ->
  find (is_for o1) (starting w) = None ->
  find (is_for o1) (writing w) = None ->
  find (is_for o2) (starting w) = None ->
  wf entries ->
  let w1 := run w [PerformTypeChecking o1 true;
                   StartResolved o1 (map hashed entries) calc_catch;
                   ProcClose (length (procs w)) 0;
                   WriteSettled o1 (WriteFailed left)] in
  let w2 := run w1 [PerformTypeChecking o2 false;
                    StartResolved o2 (map hashed entries) calc_catch'] in
  (typeCheckStatus w1 = SUCCESS /\
   heard o1 w1 = heard o1 w ++ [OnNext; OnComplete] /\
   hashFile w1 = left /\ _checksums w1 = _checksums w /\
   exists message, hd_error (trace w1) = Some (Observer o1 OnComplete) /\
                   nth_error (trace w1) 1 = Some (Logger "node" WARN message)) /\
  ((forall h, left <> Stored h) ->
   spawns w2 = S (spawns w1) /\ typeCheckStatus w2 = CHECKING).
Proof.
  intros Hstatus Ho1 Hw1 Ho2 Hwf.
  destruct (forced_check_then_write w o1 entries calc_catch (WriteFailed left)
              Hstatus Ho1 Hw1 Hwf)
    as (S1 & F1 & C1 & (message & safe & T1) & R1 & _ & _).
  cbv zeta.
  set (w1 := run w [PerformTypeChecking o1 true; _; _; _]) in *.
  clearbody w1. unfold run; cbn [fold_left]. cbn [write fst] in F1.
  split.
  - rewrite S1, F1, C1. unfold heard. rewrite T1.
    cbn [omap rev app option_bind mbind list_omap]. rewrite Nat.eqb_refl.
    cbn. rewrite <- !app_assoc. repeat split.
    exists message. now split.
  - intros Hleft.
    destruct (request_on_idle w1 o2 false)
      as (Sa & Ra & Ta & Pa & Qa & Fa & Wa & Ca).
    { rewrite S1. discriminate. }
    after wa.
    destruct (continuation_cases wa o2 false (map hashed entries) calc_catch')
      as [(_ & (old & current & Hold & _) & _) | (_ & Nb & _ & Sb & _)].
    { rewrite Ra, R1. now apply find_own_request. }
    + exfalso. rewrite Fa, F1 in Hold.
      destruct left as [| | |h|]; try discriminate. now apply (Hleft h).
    + after wb. rewrite Nb, Sb, Sa. unfold spawns. rewrite Ta. now split.
Qed.

Lemma failed_write_is_only_a_warning_witness :
  let w1 := run service [PerformTypeChecking 1 true;
                         StartResolved 1 (map hashed two_sources) [];
                         ProcClose (length (procs service)) 0;
                         WriteSettled 1 (WriteFailed NoFile)] in
  let w2 := run w1 [PerformTypeChecking 2 false;
                    StartResolved 2 (map hashed two_sources) []] in
  (typeCheckStatus w1 = SUCCESS /\
   heard 1 w1 = heard 1 service ++ [OnNext; OnComplete] /\
   hashFile w1 = NoFile /\ _checksums w1 = _checksums service /\
   exists message, hd_error (trace w1) = Some (Observer 1 OnComplete) /\
                   nth_error (trace w1) 1 = Some (Logger "node" WARN message)) /\
  (spawns w2 = S (spawns w1) /\ typeCheckStatus w2 = CHECKING).
Proof.
  destruct (failed_write_is_only_a_warning
              service 1 2 two_sources NoFile [] [])
    as [Hwarned Hnext].
  - discriminate.
  - reflexivity.
  - reflexivity.
  - reflexivity.
  - exact two_sources_wf.
  - split; [exact Hwarned |]. apply Hnext. discriminate.
Defined.

(** A type-check that fails is not recorded.  After a forced type-check
    whose compiler exited with another code than 0, the node is [ERROR]
    and the subscriber was told of the error; [write] was not called, and
    the cache file and the snapshot [_checksums] are as they were.  So the
    failure does not invalidate the cache: if the sources are those of the
    stored checksums, the next non-forced request is skipped, and sets the
    node to [SUCCESS] without the compiler having run again. *)
Theorem failed_check_is_not_recorded
    (w : World) (o1 o2 : nat) (entries : IChecksums) (code : Z)
    (calc_catch calc_try' calc_catch' : list HashJob) :
  typeCheckStatus w <> CHECKING ->
  find (is_for o1) (starting w) = None ->
  find (is_for o2) (starting w) = None ->
  wf entries -> code <> 0%Z ->
  let w1 := run w [PerformTypeChecking o1 true;
                   StartResolved o1 (map hashed entries) calc_catch;
                   ProcClose (length (procs w)) code] in
  let w2 := run w1 [PerformTypeChecking o2 false;
                    StartResolved o2 calc_try' calc_catch'] in
  (typeCheckStatus w1 = ERROR /\
   heard o1 w1 = heard o1 w ++ [OnError] /\
   writes w1 = writes w /\ writing w1 = writing w /\
   hashFile w1 = hashFile w /\ _checksums w1 = _checksums w) /\
  (sources_unchanged w calc_try' ->
   spawns w2 = spawns w1 /\ typeCheckStatus w2 = SUCCESS /\
   heard o2 w2 = heard o2 w1 ++ [OnNext; OnComplete]).
Proof.
  intros Hstatus Ho1 Ho2 Hwf Hcode. unfold run; cbn [fold_left].
  destruct (request_on_idle w o1 true Hstatus)
    as (Sa & Ra & Ta & Pa & Qa & Fa & Wa & Ca).
  after wa.
  destruct (forced_continuation wa o1 (map hashed entries) calc_catch entries)
    as (Qb & Pb & Tb & Sb & Rb & Fb & Wb & Cb).
  { rewrite Ra. now apply find_own_request. }
  { now apply calculate_distinct. }
  after wb.
  destruct (close_nonzero_of_starter wb (length (procs w)) o1 (Some entries)
              code Hcode)
    as (Sc & Tc & Wc & Qc & Pc & Rc & Fc & Cc).
  { rewrite Qb, Qa. apply lookup_end. }
  after wc.
  split.
  - rewrite Sc, Wc, Wb, Wa, Fc, Fb, Fa, Cc, Cb, Ca.
    unfold writes, heard. rewrite Tc, Tb, Ta.
    cbn [List.filter omap is_write rev app option_bind mbind list_omap].
    rewrite Nat.eqb_refl. cbn. repeat split.
  - intros (old & current & Hold & Hcur & Hcmp).
    destruct (request_on_idle wc o2 false)
      as (Sd & Rd & Td & Pd & Qd & Fd & Wd & Cd).
    { rewrite Sc. discriminate. }
    after wd.
    destruct (unchanged_continuation wd o2 calc_try' calc_catch'
                (Some old) current)
      as (Se & (skipped & starts & Te) & _).
    { rewrite Rd, Rc, Rb, Ra, filter_own_request by assumption.
      now apply find_own_request. }
    { now rewrite Fd, Fc, Fb, Fa. }
    { exact Hcur. }
    { exact Hcmp. }
    after we.
    rewrite Se. unfold spawns, heard. rewrite Te, Td.
    cbn [List.filter omap is_spawn rev app length option_bind mbind
         list_omap].
    rewrite Nat.eqb_refl. cbn. rewrite <- !app_assoc. repeat split.
Qed.

Lemma failed_check_is_not_recorded_witness :
  let w1 := run service_cached
              [PerformTypeChecking 1 true;
               StartResolved 1 (map hashed two_sources) [];
               ProcClose (length (procs service_cached)) 2] in
  let w2 := run w1 [PerformTypeChecking 2 false;
                    StartResolved 2 hashing []] in
  (typeCheckStatus w1 = ERROR /\
   heard 1 w1 = heard 1 service_cached ++ [OnError] /\
   writes w1 = writes service_cached /\
   writing w1 = writing service_cached /\
   hashFile w1 = hashFile service_cached /\
   _checksums w1 = _checksums service_cached) /\
  (spawns w2 = spawns w1 /\ typeCheckStatus w2 = SUCCESS /\
   heard 2 w2 = heard 2 w1 ++ [OnNext; OnComplete]).
Proof.
  destruct (failed_check_is_not_recorded
              service_cached 1 2 two_sources 2 [] hashing [])
    as [Hfailed Hnext].
  - discriminate.
  - reflexivity.
  - reflexivity.
  - exact two_sources_wf.
  - discriminate.
  - split; [exact Hfailed |]. apply Hnext.
    exists two_sources, two_sources_swapped. repeat split.
Defined.

End WholeTypeChecks.

(** ** Transpiling *)

Section Transpiling.
Import Checksums Compilation Examples.

Create HintDb reactions discriminated.

#[local] Hint Unfold step registerIPCServer performTypeChecking startResolved
  writeSettled dataListener closeListener errorListener
  performTypeChecking_then _startTypeChecking_begin
  _startTypeChecking_resume _startTypeChecking_try _startTypeChecking_catch
  _watchTypeChecking completed spawn _handleTscLogs _startTranspiling
  transpile_reaction setTypeCheckingStatus setTranspilingStatus write log
  emit : reactions.

Ltac handlers := repeat autounfold with reactions in *.

Ltac branches :=
  repeat (cbn -[alter insert lookup Z.eqb] in *;
          match goal with
          | |- context [match ?x with _ => _ end] =>
              lazymatch x with
              | context [match _ with _ => _ end] => fail
              | _ => destruct x eqn:?
              end
          end);
  cbn -[alter insert lookup Z.eqb] in *.




















End Transpiling.

(** ** The reducer *)

Section Reducer.
Import Store Examples.

Lemma entries_alter_fresh {A : Type} (f : A -> A) (objects : list A)
    (r : nat) (refs : list nat) :
  ~ In r refs -> entries (alter f r objects) refs = entries objects refs.
Proof.
  intros Hr. unfold entries. apply map_ext_in. intros r' Hin.
  apply list_lookup_alter_ne. intros ->. contradiction.
Qed.

(** Updating the object that [find] returns is updating the first entry
    with that name, when no object is referred to twice. *)
Lemma update_found {A : Type} (name_of : A -> string) (f : A -> A)
    (n : string) (objects : list A) (refs : list nat) (read : list A) :
  List.NoDup refs ->
  entries objects refs = map Some read ->
  entries match find_named objects name_of n refs with
          | Some r => alter f r objects
          | None => objects
          end refs
  = map Some (update_first (is_named name_of n) f read).
Proof.
  unfold find_named, is_named.
  revert read. induction refs as [|r rest IH]; intros read Hnd Hread.
  - destruct read; [reflexivity | discriminate].
  - destruct read as [|x read']; [discriminate |].
    cbn [entries map] in Hread. injection Hread as Hr Hrest.
    inversion Hnd as [|? ? Hnotin Hnd']; subst.
    cbn [find update_first]. rewrite Hr.
    destruct (String.eqb (name_of x) n) eqn:Hx.
    + cbn [entries map]. rewrite list_lookup_alter_eq, Hr. cbn. f_equal.
      fold (entries (alter f r objects) rest).
      rewrite entries_alter_fresh by assumption. exact Hrest.
    + specialize (IH read' Hnd' Hrest).
      destruct (find _ rest) as [r'|] eqn:Hfind.
      * cbn [entries map]. fold (entries (alter f r' objects) rest).
        rewrite IH. f_equal.
        rewrite list_lookup_alter_ne; [exact Hr |].
        apply find_some in Hfind. destruct Hfind as [Hin _].
        intros ->. contradiction.
      * cbn [entries map]. fold (entries objects rest).
        now rewrite IH, Hr.
Qed.

Lemma update_first_keeps {A B : Type} (field : A -> B) (f : A -> A)
    (hit : A -> bool) (l : list A) :
  (forall x, field (f x) = field x) ->
  map field (update_first hit f l) = map field l.
Proof.
  intros Hf. induction l as [|x rest IH]; [reflexivity |].
  cbn [update_first]. destruct (hit x); cbn [map]; [now rewrite Hf |].
  now rewrite IH.
Qed.

(** [UPDATE_PACKAGE_STATUS] updates an entry in place.  The state returned
    refers to the same entry objects as the state passed in, so both show
    the update.  When the state refers to no object twice, what they show
    is the entries as they were, with the status and the enablement of the
    node put in the first entry that has the name of the node: no entry is
    added or removed, no name changes, and a node that the state does not
    know is ignored.  The services, their objects and the selection of the
    user interface are as they were. *)
Theorem update_package_status_in_place
    (h : Heap) (state : IState) (node : LernaNode) (read : list PackageEntry) :
  List.NoDup (packages state) ->
  entries (package_objects h) (packages state) = map Some read ->
  let h' := fst (graphStatus h state (UPDATE_PACKAGE_STATUS node)) in
  let state' := snd (graphStatus h state (UPDATE_PACKAGE_STATUS node)) in
  let read' := update_first (is_named p_name (getName node))
                 (update_package node) read in
  packages state' = packages state /\
  entries (package_objects h') (packages state) = map Some read' /\
  map p_name read' = map p_name read /\
  (~ In (getName node) (map p_name read) -> read' = read) /\
  service_objects h' = service_objects h /\
  services state' = services state /\
  nodeSelected state' = nodeSelected state /\
  actionPanelOpen state' = actionPanelOpen state /\
  actionSelected state' = actionSelected state.
Proof.
  intros Hnd Hread. cbn [graphStatus fst snd].
  repeat split.
  - rewrite <- (update_found p_name (update_package node) (getName node)
                  (package_objects h) (packages state) read Hnd Hread).
    now destruct (find_named _ _ _ _).
  - now apply update_first_keeps.
  - intros Hnot. clear Hread. induction read as [|x rest IH]; [reflexivity |].
    cbn [update_first]. unfold is_named at 1.
    destruct (String.eqb_spec (p_name x) (getName node)) as [Heq|_].
    + destruct Hnot. left. exact Heq.
    + f_equal. apply IH. intros H. apply Hnot. now right.
  - now destruct (find_named _ _ _ _).
Qed.

(** [UPDATE_SERVICE_STATUS] does the same to the first service entry that
    has the name of the service, with the compilation status, the status
    and the enablement of the service; the port of the entry is kept, as
    are the packages and their objects. *)
Theorem update_service_status_keeps_the_port
    (h : Heap) (state : IState) (service : LernaNode)
    (read : list ServiceEntry) :
  List.NoDup (services state) ->
  entries (service_objects h) (services state) = map Some read ->
  let h' := fst (graphStatus h state (UPDATE_SERVICE_STATUS service)) in
  let state' := snd (graphStatus h state (UPDATE_SERVICE_STATUS service)) in
  let read' := update_first (is_named s_name (getName service))
                 (update_service service) read in
  services state' = services state /\
  entries (service_objects h') (services state) = map Some read' /\
  map s_name read' = map s_name read /\
  map s_port read' = map s_port read /\
  package_objects h' = package_objects h /\
  packages state' = packages state /\
  nodeSelected state' = nodeSelected state /\
  actionPanelOpen state' = actionPanelOpen state /\
  actionSelected state' = actionSelected state.
Proof.
  intros Hnd Hread. cbn [graphStatus fst snd].
  repeat split.
  - rewrite <- (update_found s_name (update_service service) (getName service)
                  (service_objects h) (services state) read Hnd Hread).
    now destruct (find_named _ _ _ _).
  - now apply update_first_keeps.
  - now apply update_first_keeps.
  - now destruct (find_named _ _ _ _).
Qed.

(** [SET_GRAPH] makes new entry objects.  The state returned shows the
    packages and the services of the graph, in the order of the graph; the
    objects that existed before are as they were, so no earlier state
    changes; and the selection of the user interface is kept. *)
Theorem set_graph_makes_new_entries
    (h : Heap) (state : IState) (graph : LernaGraph) :
  let h' := fst (graphStatus h state (SET_GRAPH graph)) in
  let state' := snd (graphStatus h state (SET_GRAPH graph)) in
  entries (package_objects h') (packages state')
  = map (fun pkg => Some (package_of pkg)) (getPackages graph) /\
  entries (service_objects h') (services state')
  = map (fun pkg => Some (service_of graph pkg)) (getServices graph) /\
  (forall r, r < length (package_objects h) ->
             package_objects h' !! r = package_objects h !! r) /\
  (forall r, r < length (service_objects h) ->
             service_objects h' !! r = service_objects h !! r) /\
  (forall r, In r (packages state') -> length (package_objects h) <= r) /\
  (forall r, In r (services state') -> length (service_objects h) <= r) /\
  nodeSelected state' = nodeSelected state /\
  actionPanelOpen state' = actionPanelOpen state /\
  actionSelected state' = actionSelected state.
Proof.
  assert (Hnew : forall (A : Type) (old new : list A),
             entries (old ++ new) (seq (length old) (length new))
             = map Some new).
  { intros A old new. unfold entries.
    revert old. induction new as [|x rest IH]; intros old; [reflexivity |].
    cbn [length seq map]. f_equal.
    - now apply list_lookup_middle.
    - specialize (IH (old ++ [x])).
      rewrite length_app, Nat.add_comm, <- app_assoc in IH. exact IH. }
  cbn [graphStatus fst snd package_objects service_objects packages services
       nodeSelected actionPanelOpen actionSelected].
  repeat split.
  - rewrite Hnew. now rewrite map_map.
  - rewrite Hnew. now rewrite map_map.
  - intros r Hr. now apply lookup_app_l.
  - intros r Hr. now apply lookup_app_l.
  - intros r Hr. apply in_seq in Hr. lia.
  - intros r Hr. apply in_seq in Hr. lia.
Qed.

Lemma update_package_status_in_place_witness :
  let h' := fst (graphStatus two_packages two_packages_state
                   (UPDATE_PACKAGE_STATUS lib_compiled)) in
  let state' := snd (graphStatus two_packages two_packages_state
                       (UPDATE_PACKAGE_STATUS lib_compiled)) in
  let read' := update_first (is_named p_name (getName lib_compiled))
                 (update_package lib_compiled)
                 (package_objects two_packages) in
  packages state' = packages two_packages_state /\
  entries (package_objects h') (packages two_packages_state)
  = map Some read' /\
  map p_name read' = map p_name (package_objects two_packages) /\
  (~ In (getName lib_compiled) (map p_name (package_objects two_packages)) ->
   read' = package_objects two_packages) /\
  service_objects h' = service_objects two_packages /\
  services state' = services two_packages_state /\
  nodeSelected state' = nodeSelected two_packages_state /\
  actionPanelOpen state' = actionPanelOpen two_packages_state /\
  actionSelected state' = actionSelected two_packages_state.
Proof.
  apply (update_package_status_in_place
           two_packages two_packages_state lib_compiled
           (package_objects two_packages)).
  - repeat constructor; cbn; intuition discriminate.
  - reflexivity.
Defined.

Lemma update_service_status_keeps_the_port_witness :
  let h' := fst (graphStatus one_service one_service_state
                   (UPDATE_SERVICE_STATUS svc_running)) in
  let state' := snd (graphStatus one_service one_service_state
                       (UPDATE_SERVICE_STATUS svc_running)) in
  let read' := update_first (is_named s_name (getName svc_running))
                 (update_service svc_running)
                 (service_objects one_service) in
  services state' = services one_service_state /\
  entries (service_objects h') (services one_service_state)
  = map Some read' /\
  map s_name read' = map s_name (service_objects one_service) /\
  map s_port read' = map s_port (service_objects one_service) /\
  package_objects h' = package_objects one_service /\
  packages state' = packages one_service_state /\
  nodeSelected state' = nodeSelected one_service_state /\
  actionPanelOpen state' = actionPanelOpen one_service_state /\
  actionSelected state' = actionSelected one_service_state.
Proof.
  apply (update_service_status_keeps_the_port
           one_service one_service_state svc_running
           (service_objects one_service)).
  - repeat constructor; cbn; intuition discriminate.
  - reflexivity.
Defined.

End Reducer.

(** ** The latency record *)

Section LatencyRecord.
Import Route53 Examples.

Lemma strict_eq_true (x : option string) (s : string) :
  strict_eq x s = true -> x = Some s.
Proof.
  destruct x as [x|]; [| discriminate]. cbn. intros H.
  apply String.eqb_eq in H. now subst.
Qed.

Lemma is_latency_record_true (domain apiGatewayUrl region : string)
    (r : ResourceRecordSet) :
  is_latency_record domain apiGatewayUrl region r = true ->
  Type_ r = Some "CNAME" /\
  Name r = Some (domain +:+ ".") /\
  Region r = Some region /\
  exists records, ResourceRecords r = Some records /\
                  In (Some apiGatewayUrl) records.
Proof.
  unfold is_latency_record. intros H.
  apply andb_prop in H. destruct H as [H Hrecords].
  apply andb_prop in H. destruct H as [H Hregion].
  apply andb_prop in H. destruct H as [Htype Hname].
  apply strict_eq_true in Htype, Hname, Hregion.
  repeat split; try assumption.
  - now destruct (endsWith_dot domain).
  - destruct (ResourceRecords r) as [records|]; [| discriminate].
    exists records. split; [reflexivity |].
    apply existsb_exists in Hrecords. destruct Hrecords as (rr & Hin & Hrr).
    apply strict_eq_true in Hrr. now subst.
Qed.

Lemma pages_found (requests : nat) (route53 : Client)
    (domain apiGatewayUrl region : string) (r : ResourceRecordSet) :
  forall nextRecordName nextRecordType,
    pages requests route53 domain apiGatewayUrl region
          nextRecordName nextRecordType = Some (Resolved (Some r)) ->
    is_latency_record domain apiGatewayUrl region r = true.
Proof.
  induction requests as [|requests IH]; intros recordName recordType;
    cbn [pages]; [discriminate |].
  destruct (route53 recordName recordType) as [result|e]; [| discriminate].
  destruct (truthy (IsTruncated result) && negb _) eqn:Hmore.
  - apply IH.
  - intros H. injection H as H. unfold find_in in H.
    destruct (ResourceRecordSets result) as [records|]; [| discriminate].
    apply find_some in H. now destruct H.
Qed.

(** What [getLatencyRecord] finds is a latency record of the domain: a
    CNAME record of the region whose name is the domain followed by a dot
    and one of whose values is the URL of the API gateway.  The dot is
    appended whether or not the domain ends with one, so for a domain
    written with its trailing dot the name of the record ends with two. *)
Theorem getLatencyRecord_finds_a_latency_record
    (requests : nat) (route53 : Client)
    (domain apiGatewayUrl region : string) (r : ResourceRecordSet) :
  getLatencyRecord requests route53 domain apiGatewayUrl region
  = Some (Resolved (Some r)) ->
  Type_ r = Some "CNAME" /\
  Name r = Some (domain +:+ ".") /\
  Region r = Some region /\
  exists records, ResourceRecords r = Some records /\
                  In (Some apiGatewayUrl) records.
Proof.
  intros H. apply is_latency_record_true. now apply pages_found in H.
Qed.

Lemma pages_from (route53 : Client) (domain apiGatewayUrl region : string)
    (k : nat) (result : ListResourceRecordSetsResponse) :
  forall first requests,
    (forall i, i < k ->
       exists earlier,
         page route53 (first + i) = Resolved earlier /\
         IsTruncated earlier = Some true /\
         find_in domain apiGatewayUrl region earlier = None) ->
    page route53 (first + k) = Resolved result ->
    (IsTruncated result <> Some true \/
     find_in domain apiGatewayUrl region result <> None) ->
    pages requests route53 domain apiGatewayUrl region
          (fst (start_of route53 first)) (snd (start_of route53 first))
    = if Nat.leb requests k then None
      else Some (Resolved (find_in domain apiGatewayUrl region result)).
Proof.
  induction k as [|k IH]; intros first requests Hearlier Hpage Hlast.
  - destruct requests as [|requests]; [reflexivity |].
    cbn [pages Nat.leb]. rewrite Nat.add_0_r in Hpage.
    unfold page in Hpage. destruct (start_of route53 first) as [rn rt].
    cbn [fst snd]. rewrite Hpage.
    destruct Hlast as [Hlast|Hlast].
    + destruct (IsTruncated result) as [[|]|]; try reflexivity.
      now contradiction Hlast.
    + destruct (find_in domain apiGatewayUrl region result);
        [| now contradiction Hlast].
      now rewrite andb_false_r.
  - destruct requests as [|requests]; [reflexivity |].
    cbn [pages]. destruct (Hearlier 0 ltac:(lia)) as (e0 & He0 & Ht0 & Hf0).
    rewrite Nat.add_0_r in He0.
    specialize (IH (S first) requests).
    cbn [start_of] in IH. unfold page in He0.
    destruct (start_of route53 first) as [rn rt] eqn:Hstart.
    cbn [fst snd]. rewrite He0 in *. rewrite Ht0, Hf0. cbn [truthy negb andb].
    cbn [fst snd] in IH. rewrite IH.
    + reflexivity.
    + intros i Hi. destruct (Hearlier (S i) ltac:(lia)) as (e & He & Ht & Hf).
      exists e. replace (S first + i) with (first + S i) by lia. now repeat split.
    + now replace (S first + k) with (first + S k) by lia.
    + exact Hlast.
Qed.

(** [getLatencyRecord] follows the pages up to the first one that holds a
    latency record or is not truncated, and returns the first latency
    record of that page, or [undefined] if it has none.  It needs one
    request for each page up to that one: with fewer the loop has not
    ended. *)
Theorem getLatencyRecord_stops_at_the_first_match_or_last_page
    (requests : nat) (route53 : Client)
    (domain apiGatewayUrl region : string)
    (k : nat) (result : ListResourceRecordSetsResponse) :
  (forall i, i < k ->
     exists earlier,
       page route53 i = Resolved earlier /\
       IsTruncated earlier = Some true /\
       find_in domain apiGatewayUrl region earlier = None) ->
  page route53 k = Resolved result ->
  (IsTruncated result <> Some true \/
   find_in domain apiGatewayUrl region result <> None) ->
  getLatencyRecord requests route53 domain apiGatewayUrl region
  = if Nat.leb requests k then None
    else Some (Resolved (find_in domain apiGatewayUrl region result)).
Proof.
  intros Hearlier Hpage Hlast. unfold getLatencyRecord.
  now apply (pages_from route53 domain apiGatewayUrl region k result 0).
Qed.

Lemma getLatencyRecord_finds_a_latency_record_witness :
  Type_ latency_record = Some "CNAME" /\
  Name latency_record = Some ("api.example.com" +:+ ".") /\
  Region latency_record = Some "eu-west-1" /\
  exists records,
    ResourceRecords latency_record = Some records /\
    In (Some "d-1.execute-api.amazonaws.com") records.
Proof.
  apply (getLatencyRecord_finds_a_latency_record
           2 zone "api.example.com" "d-1.execute-api.amazonaws.com"
           "eu-west-1" latency_record).
  reflexivity.
Defined.

Lemma getLatencyRecord_stops_at_the_first_match_or_last_page_witness :
  getLatencyRecord 2 zone "api.example.com" "d-1.execute-api.amazonaws.com"
    "eu-west-1"
  = if Nat.leb 2 1 then None
    else Some (Resolved (find_in "api.example.com"
                           "d-1.execute-api.amazonaws.com" "eu-west-1"
                           second_page)).
Proof.
  apply (getLatencyRecord_stops_at_the_first_match_or_last_page
           2 zone "api.example.com" "d-1.execute-api.amazonaws.com"
           "eu-west-1" 1 second_page).
  - intros i Hi. exists first_page.
    destruct i as [|i]; [| lia]. repeat split.
  - reflexivity.
  - left. discriminate.
Defined.

End LatencyRecord.
